(** * music21.musicxml.helpers: a shallow embedding and its properties

    The module holds helper routines of the MusicXML exporter and importer:
    a canonical serializer ([dumpString], [indent]), an ordered inserter
    ([insertBeforeElements]), a comparison of measure numbers
    ([measureNumberComesBefore]) and the synchronizers between the
    attributes of an XML element and the fields of a music21 object.

    Python values are modelled as follows.
    - A [str] is the list of its Unicode code points, each one an [N].
    - Exceptions are explicit: a call that may raise returns an [outcome].
    - An object mutated in place is passed in and handed back; where it
      matters which object is mutated, the objects live in a store. *)

From Stdlib Require Import String Ascii.
From stdpp Require Import base numbers list sorting gmap.

Local Open Scope N_scope.
Set Warnings "-register-all".

(** ** Python strings *)

Abbreviation char := N (only parsing).
Abbreviation str := (list N) (only parsing).

(** A string literal of the source, one code point for each character. *)
Definition py (s : string) : str := N_of_ascii <$> list_ascii_of_string s.
Arguments py s%_string.

Inductive exn := ValueError | TypeError | KeyError | Exception.

Inductive outcome (A : Type) :=
| Ok (a : A)
| Raise (e : exn).
Arguments Ok {A} a.
Arguments Raise {A} e.

#[global] Instance outcome_ret : MRet outcome := λ A a, Ok a.
#[global] Instance outcome_bind : MBind outcome := λ A B k m,
  match m with
  | Ok a => k a
  | Raise e => Raise e
  end.

Definition in_ranges (table : list (N * N)) (c : char) : bool :=
  existsb (λ r, (r.1 <=? c) && (c <=? r.2)) table.

(** The characters [str.strip] and [str.rstrip] remove when called without
    argument: those of [str.isspace]. *)
Definition whitespace_table : list (N * N) :=
  [(9, 13); (28, 32); (133, 133); (160, 160); (5760, 5760); (8192, 8202);
   (8232, 8233); (8239, 8239); (8287, 8287); (12288, 12288)].

Definition isspace (c : char) : bool := in_ranges whitespace_table c.

Fixpoint lstrip (s : str) : str :=
  match s with
  | c :: rest => if isspace c then lstrip rest else s
  | [] => []
  end.
Definition rstrip (s : str) : str := reverse (lstrip (reverse s)).
Definition strip (s : str) : str := rstrip (lstrip s).

(** The characters with Numeric_Type Decimal in the Unicode Character
    Database 14.0.0 (the one of CPython 3.11): [str.isdecimal], and the
    digits [int] accepts.  Every run starts at a digit zero and its length
    is a multiple of ten. *)
Definition decimal_table : list (N * N) :=
  [(48, 57); (1632, 1641); (1776, 1785); (1984, 1993); (2406, 2415);
   (2534, 2543); (2662, 2671); (2790, 2799); (2918, 2927); (3046, 3055);
   (3174, 3183); (3302, 3311); (3430, 3439); (3558, 3567); (3664, 3673);
   (3792, 3801); (3872, 3881); (4160, 4169); (4240, 4249); (6112, 6121);
   (6160, 6169); (6470, 6479); (6608, 6617); (6784, 6793); (6800, 6809);
   (6992, 7001); (7088, 7097); (7232, 7241); (7248, 7257); (42528, 42537);
   (43216, 43225); (43264, 43273); (43472, 43481); (43504, 43513);
   (43600, 43609); (44016, 44025); (65296, 65305); (66720, 66729);
   (68912, 68921); (69734, 69743); (69872, 69881); (69942, 69951);
   (70096, 70105); (70384, 70393); (70736, 70745); (70864, 70873);
   (71248, 71257); (71360, 71369); (71472, 71481); (71904, 71913);
   (72016, 72025); (72784, 72793); (73040, 73049); (73120, 73129);
   (92768, 92777); (92864, 92873); (93008, 93017); (120782, 120831);
   (123200, 123209); (123632, 123641); (125264, 125273); (130032, 130041)].

(** The characters with Numeric_Type Digit or Numeric in the same
    database: superscripts, fractions, Roman numerals, ideographs... *)
Definition other_numeric_table : list (N * N) :=
  [(178, 179); (185, 185); (188, 190); (2548, 2553); (2930, 2935);
   (3056, 3058); (3192, 3198); (3416, 3422); (3440, 3448); (3882, 3891);
   (4969, 4988); (5870, 5872); (6128, 6137); (6618, 6618); (8304, 8304);
   (8308, 8313); (8320, 8329); (8528, 8578); (8581, 8585); (9312, 9371);
   (9450, 9471); (10102, 10131); (11517, 11517); (12295, 12295);
   (12321, 12329); (12344, 12346); (12690, 12693); (12832, 12841);
   (12872, 12879); (12881, 12895); (12928, 12937); (12977, 12991);
   (13317, 13317); (13443, 13443); (14378, 14378); (15181, 15181);
   (19968, 19968); (19971, 19971); (19975, 19975); (19977, 19977);
   (20061, 20061); (20108, 20108); (20116, 20116); (20118, 20118);
   (20159, 20160); (20191, 20191); (20200, 20200); (20237, 20237);
   (20336, 20336); (20740, 20740); (20806, 20806); (20841, 20841);
   (20843, 20843); (20845, 20845); (21313, 21313); (21315, 21317);
   (21324, 21324); (21441, 21444); (22235, 22235); (22769, 22769);
   (22777, 22777); (24186, 24186); (24318, 24319); (24332, 24334);
   (24336, 24336); (25342, 25342); (25420, 25420); (26578, 26578);
   (28422, 28422); (29590, 29590); (30334, 30334); (32902, 32902);
   (33836, 33836); (36014, 36014); (36019, 36019); (36144, 36144);
   (38433, 38433); (38470, 38470); (38476, 38476); (38520, 38520);
   (38646, 38646); (42726, 42735); (43056, 43061); (63851, 63851);
   (63859, 63859); (63864, 63864); (63922, 63922); (63953, 63953);
   (63955, 63955); (63997, 63997); (65799, 65843); (65856, 65912);
   (65930, 65931); (66273, 66299); (66336, 66339); (66369, 66369);
   (66378, 66378); (66513, 66517); (67672, 67679); (67705, 67711);
   (67751, 67759); (67835, 67839); (67862, 67867); (68028, 68029);
   (68032, 68047); (68050, 68095); (68160, 68168); (68221, 68222);
   (68253, 68255); (68331, 68335); (68440, 68447); (68472, 68479);
   (68521, 68527); (68858, 68863); (69216, 69246); (69405, 69414);
   (69457, 69460); (69573, 69579); (69714, 69733); (70113, 70132);
   (71482, 71483); (71914, 71922); (72794, 72812); (73664, 73684);
   (74752, 74862); (93019, 93025); (93824, 93846); (119520, 119539);
   (119648, 119672); (125127, 125135); (126065, 126123); (126125, 126127);
   (126129, 126132); (126209, 126253); (126255, 126269); (127232, 127244);
   (131073, 131073); (131172, 131172); (131298, 131298); (131361, 131361);
   (133418, 133418); (133507, 133507); (133516, 133516); (133532, 133532);
   (133866, 133866); (133885, 133885); (133913, 133913); (140176, 140176);
   (141720, 141720); (146203, 146203); (156269, 156269); (194704, 194704)].

Definition isdecimal (c : char) : bool := in_ranges decimal_table c.

(** [char.isnumeric()] *)
Definition isnumeric (c : char) : bool :=
  isdecimal c || in_ranges other_numeric_table c.

(** The value of a decimal digit, [None] for any other character. *)
Definition decimal_value (c : char) : option N :=
  (λ r, (c - r.1) mod 10) <$>
    find (λ r, (r.1 <=? c) && (c <=? r.2)) decimal_table.

(** The longest numeral [int] reads and [str] writes for an integer: the
    interpreter's limit [sys.get_int_max_str_digits()], 4300 digits unless
    the program changes it. *)
Definition max_str_digits : N := 4300.

(** [int(s)] for a string [s] of numeric characters, which is what the
    source calls it with: no sign, blank or underscore has to be read.  It
    raises ValueError on the empty string, on a string of more than
    [max_str_digits] characters and on a character that is not a decimal
    digit; leading zeros are read, and counted.  Python integers are
    unbounded. *)
Definition int_digits (s : str) : option N :=
  foldl (λ acc c, n ← acc; d ← decimal_value c; Some (10 * n + d)) (Some 0) s.

Definition int (s : str) : outcome Z :=
  match s with
  | [] => Raise ValueError
  | _ =>
      if max_str_digits <? N.of_nat (length s) then Raise ValueError
      else from_option (λ n, Ok (Z.of_N n)) (Raise ValueError) (int_digits s)
  end.

(** The text of a decimal numeral. *)
Fixpoint uint_str (d : Decimal.uint) : str :=
  match d with
  | Decimal.Nil => []
  | Decimal.D0 d => 48 :: uint_str d
  | Decimal.D1 d => 49 :: uint_str d
  | Decimal.D2 d => 50 :: uint_str d
  | Decimal.D3 d => 51 :: uint_str d
  | Decimal.D4 d => 52 :: uint_str d
  | Decimal.D5 d => 53 :: uint_str d
  | Decimal.D6 d => 54 :: uint_str d
  | Decimal.D7 d => 55 :: uint_str d
  | Decimal.D8 d => 56 :: uint_str d
  | Decimal.D9 d => 57 :: uint_str d
  end.

(** [a < b] on strings: by code point at the first difference, a proper
    prefix first. *)
Fixpoint str_ltb (a b : str) : bool :=
  match a, b with
  | _, [] => false
  | [], _ :: _ => true
  | x :: a', y :: b' =>
      if x <? y then true else if y <? x then false else str_ltb a' b'
  end.

(** [sorted(l)]: the stable sort by [<] of the elements. *)
Section sorted.
Context {A : Type} (ltb : A → A → bool).

Fixpoint sorted_insert (x : A) (l : list A) : list A :=
  match l with
  | [] => [x]
  | y :: l' => if ltb y x then y :: sorted_insert x l' else x :: y :: l'
  end.

Definition sorted (l : list A) : list A := foldr sorted_insert [] l.
End sorted.

(** ** measureNumberComesBefore *)

Fixpoint leading_numeric (measureNumber : str) : str :=
  match measureNumber with
  | [] => []
  | char :: rest => if isnumeric char then char :: leading_numeric rest else []
  end.

Definition splitSuffix (measureNumber : str) : str * str :=
  let number := leading_numeric measureNumber in
  let suffix := drop (length number) measureNumber in
  (number, suffix).

(** The two suffixes are two objects; [is] compares identities, so each
    value is paired with the name of its object.  When both have the same
    value the interpreter may share one object for them: the stable sort
    keeps the first one in front and the test holds either way. *)
Definition measureNumberComesBefore (mNum1 mNum2 : str) : outcome bool :=
  if decide (mNum1 = mNum2) then Ok false
  else
    let '(m1Numeric, m1Suffix) := splitSuffix mNum1 in
    let '(m2Numeric, m2Suffix) := splitSuffix mNum2 in
    n1 ← int m1Numeric;
    n2 ← int m2Numeric;
    if negb (n1 =? n2)%Z then Ok (n1 <? n2)%Z
    else
      let sortedSuffixes :=
        sorted (λ a b : nat * str, str_ltb a.2 b.2)
               [(1%nat, m1Suffix); (2%nat, m2Suffix)] in
      Ok (bool_decide (fst <$> head sortedSuffixes = Some 1%nat)).

(** ** Python values, dictionaries and XML elements *)

Inductive PyValue :=
| PyNone
| PyBool (b : bool)
| PyInt (z : Z)
| PyStr (s : str).

#[global] Instance PyValue_eq_dec : EqDecision PyValue.
Proof. solve_decision. Defined.

(** A [dict] keeps its items in insertion order and has no two items with
    the same key: an association list, with [d[k] = v] replacing the value
    of a key that is present and adding a new key at the end. *)
Section dict.
Context {V : Type}.

Definition dict_get (d : list (str * V)) (k : str) : option V :=
  snd <$> find (λ kv, bool_decide (kv.1 = k)) d.

Fixpoint dict_set (d : list (str * V)) (k : str) (v : V) : list (str * V) :=
  match d with
  | [] => [(k, v)]
  | kv :: d' =>
      if decide (kv.1 = k) then (kv.1, v) :: d' else kv :: dict_set d' k v
  end.

(** [d.update(items)] *)
Definition dict_update (d items : list (str * V)) : list (str * V) :=
  foldl (λ d kv, dict_set d kv.1 kv.2) d items.
End dict.

(** An [xml.etree.ElementTree.Element]: [len(elem)] is the number of its
    children and iterating over it yields them in order.  The trees are
    proper: no element occurs twice. *)
Inductive Element := mkElement {
  tag : str;
  attrib : list (str * PyValue);
  text : option str;
  tail : option str;
  children : list Element
}.

Definition Element_get (elem : Element) (k : str) : option PyValue :=
  dict_get (attrib elem) k.

Definition Element_set (elem : Element) (k : str) (v : PyValue) : Element :=
  mkElement (tag elem) (dict_set (attrib elem) k v) (text elem) (tail elem)
            (children elem).

Definition set_tail (t : option str) (elem : Element) : Element :=
  mkElement (tag elem) (attrib elem) (text elem) t (children elem).

Definition set_children (cs : list Element) (elem : Element) : Element :=
  mkElement (tag elem) (attrib elem) (text elem) (tail elem) cs.

(** [elem.iter()]: the element and its descendants in document order. *)
Fixpoint iter (elem : Element) : list Element :=
  elem :: (children elem ≫= iter).

(** ** indent *)

(** [n * s] *)
Definition str_repeat (n : nat) (s : str) : str := mjoin (replicate n s).

(** [not s or not s.strip()] *)
Definition blank (s : option str) : bool :=
  match s with
  | None => true
  | Some s => bool_decide (s = []) || bool_decide (strip s = [])
  end.

(** [subElem.tail = i] for the last element the loop went through. *)
Fixpoint set_last_tail (i : str) (l : list Element) : list Element :=
  match l with
  | [] => []
  | [subElem] => [set_tail (Some i) subElem]
  | e :: l' => e :: set_last_tail i l'
  end.

(** The element as [indent(elem, level)] leaves it. *)
Fixpoint indent (elem : Element) (level : nat) : Element :=
  let i := 10 :: str_repeat level (py "  ") in
  match children elem with
  | _ :: _ =>
      let text1 := if blank (text elem) then Some (i ++ py "  ")
                   else text elem in
      let tail1 := if blank (tail elem) then Some i else tail elem in
      let indented := (λ subElem, indent subElem (S level)) <$> children elem in
      let children1 := set_last_tail i indented in
      let tail2 := if blank tail1
                   then Some (10 :: str_repeat level (py "  ")) else tail1 in
      mkElement (tag elem) (attrib elem) text1 tail2 children1
  | [] =>
      if negb (level =? 0)%nat && blank (tail elem)
      then set_tail (Some i) elem else elem
  end.

(** ** The serializer of ElementTree

    [tostring(elem, encoding='unicode')] with the default method and short
    empty elements, after [ElementTree.write], [_namespaces],
    [_serialize_xml], [_escape_cdata] and [_escape_attrib] of CPython 3.11.
    A tag or an attribute name that starts with an opening brace is a
    qualified name [{uri}local]: it is written [prefix:local], and the
    prefixes are declared in the start tag of the root.  Any other name is
    written as it is.  A name that opens a brace and closes none makes the
    serializer raise ValueError, an attribute value that is not a string
    TypeError. *)

Definition replace (c : char) (new : str) (s : str) : str :=
  s ≫= λ x, if decide (x = c) then new else [x].

Definition escape_cdata (text : str) : str :=
  replace 62 (py "&gt;") (replace 60 (py "&lt;") (replace 38 (py "&amp;") text)).

Definition escape_attrib (v : PyValue) : outcome str :=
  match v with
  | PyStr text =>
      Ok (replace 9 (py "&#09;") (replace 10 (py "&#10;")
         (replace 13 (py "&#13;") (replace 34 (py "&quot;")
         (replace 62 (py "&gt;") (replace 60 (py "&lt;")
         (replace 38 (py "&amp;") text)))))))
  | _ => Raise TypeError
  end.

(** [if s:] on a value that is None or a string. *)
Definition truthy (s : option str) : str := default [] s.

(** [_namespace_map]: the prefixes the module knows when it is loaded,
    and as long as the program registers no other. *)
Definition namespace_map : list (str * str) :=
  [(py "http://www.w3.org/XML/1998/namespace", py "xml");
   (py "http://www.w3.org/1999/xhtml", py "html");
   (py "http://www.w3.org/1999/02/22-rdf-syntax-ns#", py "rdf");
   (py "http://schemas.xmlsoap.org/wsdl/", py "wsdl");
   (py "http://www.w3.org/2001/XMLSchema", py "xs");
   (py "http://www.w3.org/2001/XMLSchema-instance", py "xsi");
   (py "http://purl.org/dc/elements/1.1/", py "dc")].

(** [s.rsplit("}", 1)] when it gives two parts, those before and after the
    last closing brace of [s]. *)
Fixpoint rsplit_brace (s : str) : option (str * str) :=
  match s with
  | [] => None
  | c :: rest =>
      match rsplit_brace rest with
      | Some (uri, tag) => Some (c :: uri, tag)
      | None => if decide (c = 125) then Some ([], rest) else None
      end
  end.

(** [add_qname] of [_namespaces]: the name written for [qname] is entered
    in [qnames], and the prefix of a new URI in [namespaces].  A qualified
    name starts with an opening brace (code point 123); unpacking the
    result of [rsplit] raises ValueError when it has no closing brace
    (125).  The prefix and the local name are joined by a colon (58). *)
Definition add_qname (qname : str)
    (tables : list (str * str) * list (str * str))
    : outcome (list (str * str) * list (str * str)) :=
  let '(qnames, namespaces) := tables in
  if decide (take 1 qname = [123]) then
    match rsplit_brace (drop 1 qname) with
    | None => Raise ValueError
    | Some (uri, tag) =>
        let '(prefix, namespaces) :=
          match dict_get namespaces uri with
          | Some prefix => (prefix, namespaces)
          | None =>
              let prefix :=
                default (py "ns" ++ uint_str (Nat.to_uint (length namespaces)))
                        (dict_get namespace_map uri) in
              (prefix, if decide (prefix = py "xml") then namespaces
                       else dict_set namespaces uri prefix)
          end in
        Ok (dict_set qnames qname
              (if decide (prefix = []) then tag else prefix ++ 58 :: tag),
            namespaces)
    end
  else Ok (dict_set qnames qname qname, namespaces).

(** [if name not in qnames: add_qname(name)] *)
Definition note_qname (name : str)
    (tables : list (str * str) * list (str * str))
    : outcome (list (str * str) * list (str * str)) :=
  match dict_get tables.1 name with
  | Some _ => Ok tables
  | None => add_qname name tables
  end.

(** A loop over a list whose body changes a state and may raise. *)
Fixpoint for_each {A S : Type} (body : A → S → outcome S) (l : list A) (st : S)
    : outcome S :=
  match l with
  | [] => Ok st
  | x :: l' => st ← body x st; for_each body l' st
  end.

(** [_namespaces(elem)]: the tables [qnames] and [namespaces], filled from
    the tag and the attribute names of every element of the tree in
    document order. *)
Definition namespaces_of (elem : Element)
    : outcome (list (str * str) * list (str * str)) :=
  for_each (λ elem tables,
              tables ← note_qname (tag elem) tables;
              for_each (λ kv, note_qname kv.1) (attrib elem) tables)
           (iter elem) ([], []).

(** [qnames[name]] *)
Definition qname_of (qnames : list (str * str)) (name : str) : outcome str :=
  from_option Ok (Raise KeyError) (dict_get qnames name).

(** The declarations written in the start tag of the root, sorted on the
    prefix. *)
Definition serialize_namespaces (namespaces : list (str * str)) : outcome str :=
  foldr (λ vk rest,
           v ← escape_attrib (PyStr vk.1); r ← rest;
           Ok (py " xmlns" ++ (if decide (vk.2 = []) then [] else 58 :: vk.2)
               ++ [61; 34] ++ v ++ [34] ++ r))
        (Ok []) (sorted (λ a b : str * str, str_ltb a.2 b.2) namespaces).

Definition serialize_items (qnames : list (str * str))
    (items : list (str * PyValue)) : outcome str :=
  foldr (λ kv rest, v ← escape_attrib kv.2; k ← qname_of qnames kv.1; r ← rest;
                    Ok (py " " ++ k ++ [61; 34] ++ v ++ [34] ++ r))
        (Ok []) items.

(** [_serialize_xml]; the children are written without declarations. *)
Fixpoint serialize_xml (qnames namespaces : list (str * str)) (elem : Element)
    : outcome str :=
  tag ← qname_of qnames (tag elem);
  xmlns ← serialize_namespaces namespaces;
  items ← serialize_items qnames (attrib elem);
  inner ← foldr (λ e rest, s ← serialize_xml qnames [] e; r ← rest; Ok (s ++ r))
                (Ok []) (children elem);
  let body :=
    match truthy (text elem), children elem with
    | [], [] => py " />"
    | t, _ => py ">" ++ escape_cdata t ++ inner ++ py "</" ++ tag ++ py ">"
    end in
  Ok (py "<" ++ tag ++ xmlns ++ items ++ body
      ++ escape_cdata (truthy (tail elem))).

(** The loop over the children of an element. *)
Definition serialize_children (qnames : list (str * str)) (cs : list Element)
    : outcome str :=
  foldr (λ e rest, s ← serialize_xml qnames [] e; r ← rest; Ok (s ++ r))
        (Ok []) cs.

Definition et_tostring (elem : Element) : outcome str :=
  '(qnames, namespaces) ← namespaces_of elem;
  serialize_xml qnames namespaces elem.

(** ** dumpString *)

(** The loop over [xmlEl.iter()]: every element of the tree with more than
    one attribute gets its items sorted.  Two items of a dictionary have
    different keys, so [sorted] orders them by key. *)
Definition sort_attrib (attrib : list (str * PyValue)) : list (str * PyValue) :=
  if (1 <? length attrib)%nat then
    let attribs := sorted (λ a b : str * PyValue, str_ltb a.1 b.1) attrib in
    dict_update [] attribs
  else attrib.

Fixpoint sort_attributes (el : Element) : Element :=
  mkElement (tag el) (sort_attrib (attrib el)) (text el) (tail el)
            (sort_attributes <$> children el).

(** Elements are objects: the store maps the name of a root element to
    the tree below it.  [copy.deepcopy] gives a new object with the same
    contents; [indent] and the loop change the object they are given. *)
Abbreviation ref := nat (only parsing).
Abbreviation store := (gmap nat Element) (only parsing).

Definition deepcopy (obj : ref) (σ : store) : option (ref * store) :=
  t ← σ !! obj;
  let xmlEl := fresh (dom σ) in
  Some (xmlEl, <[xmlEl := t]> σ).

Definition in_place (f : Element → Element) (obj : ref) (σ : store)
    : option store :=
  t ← σ !! obj; Some (<[obj := f t]> σ).

(** [dumpString(obj, noCopy=...)] from a store in which [obj] names an
    element ([None] otherwise): the string returned, or the exception, and
    the store the call leaves. *)
Definition dumpString (obj : ref) (noCopy : bool) (σ : store)
    : option (outcome str * store) :=
  '(xmlEl, σ) ← (if noCopy then (λ _, (obj, σ)) <$> σ !! obj
                 else deepcopy obj σ);
  σ ← in_place (λ elem, indent elem 0) xmlEl σ;
  σ ← in_place sort_attributes xmlEl σ;
  t ← σ !! xmlEl;
  Some (xStr ← et_tostring t; Ok (rstrip xStr), σ).

(** ** insertBeforeElements *)

(** [l.insert(i, x)] for an index that is not negative. *)
Definition list_insert_at {A} (i : nat) (x : A) (l : list A) : list A :=
  take i l ++ x :: drop i l.

(** [min(s)]: ValueError on the empty set. *)
Definition set_min (s : gset nat) : outcome nat :=
  match elements s with
  | [] => Raise ValueError
  | i :: l => Ok (foldr Nat.min i l)
  end.

(** The set the loop builds over [enumerate(root.findall('*'))], which
    goes through the children of [root] and no deeper. *)
Definition insertIndices (root : Element) (tagList : list str) : gset nat :=
  foldl (λ (s : gset nat) (ic : nat * Element),
           if bool_decide (tag ic.2 ∈ tagList) then s ∪ {[ ic.1 ]} else s)
        {[ length (children root) ]}
        (imap (λ i child, (i, child)) (children root)).

(** The root as the call leaves it. *)
Definition insertBeforeElements
    (root insert : Element) (tagList : option (list str)) : outcome Element :=
  match tagList with
  | None | Some [] => Ok (set_children (children root ++ [insert]) root)
  | Some tagList =>
      k ← set_min (insertIndices root tagList);
      Ok (set_children (list_insert_at k insert (children root)) root)
  end.

(** ** Objects and the synchronizers *)

(** A music21 object as the helpers see it: whether it is an instance of
    [prebase.ProtoM21Object], and its attributes by name.  [getattr],
    [hasattr] and [setattr] read and write the attributes. *)
Record PyObject := mkObject {
  isProtoM21Object : bool;
  fields : gmap (list N) PyValue
}.

Definition setattr (o : PyObject) (name : str) (v : PyValue) : PyObject :=
  mkObject (isProtoM21Object o) (<[name := v]> (fields o)).

(** The decimal digits of an integer, without its sign. *)
Definition decimal_digits (z : Z) : str :=
  match Z.to_int z with
  | Decimal.Pos d | Decimal.Neg d => uint_str d
  end.

(** [str(value)]: it raises ValueError on an integer of more than
    [max_str_digits] digits, the sign not counted. *)
Definition py_str (value : PyValue) : outcome str :=
  match value with
  | PyNone => Ok (py "None")
  | PyBool true => Ok (py "True")
  | PyBool false => Ok (py "False")
  | PyInt z =>
      if max_str_digits <? N.of_nat (length (decimal_digits z))
      then Raise ValueError
      else Ok ((if (z <? 0)%Z then [45] else []) ++ decimal_digits z)
  | PyStr s => Ok s
  end.

(** [transform(value)] when a transform is given; it may raise. *)
Definition apply_transform (transform : option (PyValue → outcome PyValue))
    (value : PyValue) : outcome PyValue :=
  match transform with
  | None => Ok value
  | Some f => f value
  end.

Section synchronizers.
(** [xmlObjects.isValidXSDID] and [common.hyphenToCamelCase] belong to
    other modules of music21: the helpers are stated for any such
    functions. *)
Variable isValidXSDID : PyValue → bool.
Variable hyphenToCamelCase : str → str.

(** The element as the call leaves it; [None] for the object is the
    Python None. *)
Definition synchronizeIdsToXML
    (element : Element) (m21Object : option PyObject) : Element :=
  match m21Object with
  | None => element
  | Some m21Object =>
      if negb (isProtoM21Object m21Object) then element
      else
        match fields m21Object !! py "id" with
        | None => element
        | Some m21Id =>
            if decide (m21Id = PyNone) then element
            else if negb (isValidXSDID m21Id) then element
            else Element_set element (py "id") m21Id
        end
  end.

(** The object as the call leaves it, or the exception of the
    transform. *)
Definition setM21AttributeFromAttribute
    (m21El : PyObject) (xmlEl : Element) (xmlAttributeName : str)
    (attributeName : option str)
    (transform : option (PyValue → outcome PyValue)) : outcome PyObject :=
  let value := default PyNone (Element_get xmlEl xmlAttributeName) in
  if decide (value = PyNone) then Ok m21El
  else
    value ← apply_transform transform value;
    let attributeName :=
      default (hyphenToCamelCase xmlAttributeName) attributeName in
    Ok (setattr m21El attributeName value).

(** The element as the call leaves it, or the exception of the
    transform or of [str]. *)
Definition setXMLAttributeFromAttribute
    (m21El : PyObject) (xmlEl : Element) (xmlAttributeName : str)
    (attributeName : option str)
    (transform : option (PyValue → outcome PyValue)) : outcome Element :=
  let attributeName :=
    default (hyphenToCamelCase xmlAttributeName) attributeName in
  let value := default PyNone (fields m21El !! attributeName) in
  if decide (value = PyNone) then Ok xmlEl
  else
    value ← apply_transform transform value;
    s ← py_str value;
    Ok (Element_set xmlEl xmlAttributeName (PyStr s)).
End synchronizers.

(** Modelled from the spec: the letters of [xmlObjects.isValidXSDID], a
    function that is not among the sources.  The spec names no alphabet;
    the letters are those of ASCII. *)
Definition isletter (c : char) : bool :=
  (65 <=? c) && (c <=? 90) || (97 <=? c) && (c <=? 122).

(** Modelled from the spec: [xmlObjects.isValidXSDID], which is not among
    the sources.  The spec gives the rule as a conservative XML-name-like
    grammar: the identifier starts with a letter or an underscore, is made
    of a limited character set and is not numeric only.  The set is taken
    to be the one of an XML name without colon (letters, digits,
    underscore, hyphen, full stop); a value that is not a string is not
    valid. *)
Definition spec_isValidXSDID (v : PyValue) : bool :=
  match v with
  | PyStr (c :: rest) =>
      (isletter c || (c =? 95))
      && forallb (λ c, isletter c || isdecimal c
                       || bool_decide (c ∈ py "_-.")) (c :: rest)
  | _ => false
  end.

(** ** Notions the properties are stated with *)

(** No range of the first table meets a range of the second. *)
Definition ranges_apart (t1 t2 : list (N * N)) : bool :=
  forallb (λ r, forallb (λ w, (r.2 <? w.1) || (w.2 <? r.1)) t2) t1.

(** The leading run of decimal digits of a measure identifier. *)
Fixpoint leading_decimal (s : str) : str :=
  match s with
  | [] => []
  | c :: rest => if isdecimal c then c :: leading_decimal rest else []
  end.

(** The tree [dumpString] hands to the serializer. *)
Definition canonical (t : Element) : Element := sort_attributes (indent t 0).

(** A well-formed tree: the attributes of every element are a dictionary,
    no name occurs twice. *)
Definition wf_Element (t : Element) : Prop :=
  Forall (λ el, NoDup (attrib el).*1) (iter t).

(** Two trees that differ only in the insertion order of the attributes
    of their elements. *)
Inductive same_but_attrib_order : Element → Element → Prop :=
| same_mkElement tg attrs1 attrs2 tx tl cs1 cs2 :
    attrs1 ≡ₚ attrs2 → Forall2 same_but_attrib_order cs1 cs2 →
    same_but_attrib_order (mkElement tg attrs1 tx tl cs1)
                          (mkElement tg attrs2 tx tl cs2).

Definition str_lt (a b : str) : Prop := str_ltb a b = true.

(** The indices the source collects: the number of children, and the index
    of every child whose tag is in the list. *)
Definition insert_index (cs : list Element) (tagList : list str) (i : nat)
    : Prop :=
  i = length cs ∨ ∃ child, cs !! i = Some child ∧ tag child ∈ tagList.

(** Trees and objects of the examples. *)
Definition leaf (tg : str) (tx : option str) : Element :=
  mkElement tg [] tx None [].

Definition clef_sign_line : Element :=
  mkElement (py "clef") [] None None
    [leaf (py "sign") (Some (py "G")); leaf (py "line") (Some (py "4"))].

Definition attrs_ba : Element :=
  mkElement (py "note") [(py "b", PyStr (py "2")); (py "a", PyStr (py "1"))]
            None None [].
Definition attrs_ab : Element :=
  mkElement (py "note") [(py "a", PyStr (py "1")); (py "b", PyStr (py "2"))]
            None None [].

(** [<a z="1" xml:lang="en" />]: the second attribute has a qualified
    name. *)
Definition z_xml_lang : Element :=
  mkElement (py "a")
    [(py "z", PyStr (py "1"));
     (py "{http://www.w3.org/XML/1998/namespace}lang", PyStr (py "en"))]
    None None [].

(** [<p>Hello <b>world</b>!</p>]: the tail of the only child of [p] is
    the text ['!']. *)
Definition hello_world : Element :=
  mkElement (py "p") [] (Some (py "Hello ")) None
    [mkElement (py "b") [] (Some (py "world")) (Some (py "!")) []].

Definition fermata : Element := leaf (py "fermata") None.

Definition m21 (fs : list (str * PyValue)) : PyObject :=
  mkObject true (list_to_map fs).

(** An object that is no instance of [prebase.ProtoM21Object]. *)
Definition not_m21 (fs : list (str * PyValue)) : PyObject :=
  mkObject false (list_to_map fs).

(** ** synchronizeIdsToM21 and dump *)

(** [not value] is false on these values: the truth value of a Python
    value. *)
Definition py_truthy (value : PyValue) : bool :=
  match value with
  | PyNone => false
  | PyBool b => b
  | PyInt z => negb (z =? 0)%Z
  | PyStr s => negb (bool_decide (s = []))
  end.

(** The object as the call leaves it. *)
Definition synchronizeIdsToM21 (element : Element) (m21Object : PyObject)
    : PyObject :=
  let newId := default PyNone (Element_get element (py "id")) in
  if negb (py_truthy newId) then m21Object
  else setattr m21Object (py "id") newId.

(** [dump(obj)]: [print] writes the string and a line feed to the standard
    output, here the text written so far; an exception of [dumpString]
    leaves it as it is. *)
Definition dump (obj : ref) (σ : store) (stdout : str)
    : option (outcome () * store * str) :=
  '(xStr, σ) ← dumpString obj false σ;
  Some (match xStr with
        | Ok xStr => (Ok (), σ, stdout ++ xStr ++ [10])
        | Raise e => (Raise e, σ, stdout)
        end).

(** Transforms for the examples: a truth value to ['yes'] or ['no'], the
    way back, and [int] on a string of digits. *)
Definition to_yes_no (value : PyValue) : outcome PyValue :=
  Ok (PyStr (if py_truthy value then py "yes" else py "no")).

Definition from_yes_no (value : PyValue) : outcome PyValue :=
  Ok (PyBool (bool_decide (value = PyStr (py "yes")))).

Definition str_to_int (value : PyValue) : outcome PyValue :=
  match value with
  | PyStr s => n ← int s; Ok (PyInt n)
  | _ => Raise TypeError
  end.

(** ** The layout of the output, stated apart from the code *)

(** A line feed and two spaces for each level. *)
Definition newline_indent (level : nat) : str :=
  10 :: str_repeat level (py "  ").

Definition is_PyStr (v : PyValue) : bool :=
  match v with
  | PyStr _ => true
  | _ => false
  end.

(** Every attribute value of the tree is a string. *)
Definition all_str (t : Element) : Prop :=
  Forall (λ el, Forall (λ kv : str * PyValue, is_PyStr kv.2 = true) (attrib el))
         (iter t).

(** A tree as the exporter builds it: no tail and no text of an element
    with children has a character that is not blank. *)
Definition plain (t : Element) : Prop :=
  Forall (λ el, blank (tail el) = true ∧
                (children el ≠ [] → blank (text el) = true))
         (iter t).

(** What the serializer writes for a tree without qualified names: every
    name as it is, and no declaration. *)
Definition serialize_plain_items (items : list (str * PyValue)) : outcome str :=
  foldr (λ kv rest, v ← escape_attrib kv.2; r ← rest;
                    Ok (py " " ++ kv.1 ++ [61; 34] ++ v ++ [34] ++ r))
        (Ok []) items.

Fixpoint serialize_plain (elem : Element) : outcome str :=
  items ← serialize_plain_items (attrib elem);
  inner ← foldr (λ e rest, s ← serialize_plain e; r ← rest; Ok (s ++ r))
                (Ok []) (children elem);
  let body :=
    match truthy (text elem), children elem with
    | [], [] => py " />"
    | t, _ => py ">" ++ escape_cdata t ++ inner ++ py "</" ++ tag elem ++ py ">"
    end in
  Ok (py "<" ++ tag elem ++ items ++ body ++ escape_cdata (truthy (tail elem))).

Definition serialize_plain_all (cs : list Element) : outcome str :=
  foldr (λ e rest, s ← serialize_plain e; r ← rest; Ok (s ++ r)) (Ok []) cs.

(** The names the serializer meets: the tag and the attribute names of
    every element, in document order. *)
Definition names (t : Element) : list str :=
  iter t ≫= λ el, tag el :: (attrib el).*1.

(** A name that is not qualified: it does not start with an opening
    brace. *)
Definition plain_name (name : str) : Prop := take 1 name ≠ [123].

(** A name the serializer can write: when it starts with an opening brace,
    a closing brace follows. *)
Definition closed_name (name : str) : Prop :=
  take 1 name = [123] → 125 ∈ drop 1 name.

(** A table in which every name that is not qualified stands for
    itself. *)
Definition plain_entries (qnames : list (str * str)) : Prop :=
  ∀ name q, dict_get qnames name = Some q → plain_name name → q = name.

Definition plain_names (t : Element) : Prop := Forall plain_name (names t).

Definition closed_names (t : Element) : Prop := Forall closed_name (names t).

Definition item_str (kv : str * PyValue) : str :=
  py " " ++ kv.1 ++ [61; 34]
  ++ match escape_attrib kv.2 with Ok v => v | Raise _ => [] end ++ [34].

(** Ascending order of names, and the items of an element in that order:
    the order the layout is stated with, by the merge sort of the library
    and apart from the loop of [dumpString]. *)
Definition name_le (a b : str * PyValue) : Prop := str_ltb b.1 a.1 = false.

#[global] Instance name_le_dec : RelDecision name_le :=
  λ a b, decide (str_ltb b.1 a.1 = false).

Definition ascending (attrs : list (str * PyValue)) : list (str * PyValue) :=
  merge_sort name_le attrs.

(** The expected text of an element at a depth: the start tag with the
    attributes in ascending order of name; for an element without children
    the short form or the text and the end tag; otherwise every child on a
    line of its own, two spaces deeper, and the end tag on a line of its
    own. *)
Fixpoint pretty (level : nat) (elem : Element) : str :=
  let start := py "<" ++ tag elem ++ (ascending (attrib elem) ≫= item_str) in
  match children elem with
  | [] =>
      match truthy (text elem) with
      | [] => start ++ py " />"
      | t => start ++ py ">" ++ escape_cdata t ++ py "</" ++ tag elem ++ py ">"
      end
  | cs =>
      start ++ py ">"
      ++ (cs ≫= λ c, newline_indent (S level) ++ pretty (S level) c)
      ++ newline_indent level ++ py "</" ++ tag elem ++ py ">"
  end.

(** The index of the first child with a tag of the list, the number of
    children when there is none. *)
Fixpoint first_match (tagList : list str) (cs : list Element) : nat :=
  match cs with
  | [] => 0
  | c :: cs' =>
      if bool_decide (tag c ∈ tagList) then 0 else S (first_match tagList cs')
  end.

(** A measure identifier [int] can read the numeric part of: the part is
    not empty, has no more than [max_str_digits] characters and is made of
    decimal digits. *)
Definition readable_number (s : str) : Prop :=
  leading_numeric s ≠ [] ∧
  N.of_nat (length (leading_numeric s)) ≤ max_str_digits ∧
  Forall (λ c, isdecimal c = true) (leading_numeric s).

(** What [dumpString] keeps of an element: the tag, the attributes up to
    their order, the number of children, the text when the element has no
    children or the text has a character that is not blank, and the tail of
    every child but the last when the tail has a character that is not
    blank. *)
Definition same_content (n n' : Element) : Prop :=
  tag n' = tag n ∧ attrib n' ≡ₚ attrib n ∧
  length (children n') = length (children n) ∧
  (children n = [] ∨ blank (text n) = false → text n' = text n) ∧
  (∀ k c, children n !! k = Some c → (S k < length (children n))%nat →
     blank (tail c) = false → tail <$> children n' !! k = Some (tail c)).

(** The name the serializer writes for a name of the tree. *)
Definition written_name (qnames : list (str * str)) (name : str) : str :=
  default name (dict_get qnames name).

(** * Properties *)

(** ** measureNumberComesBefore *)

(** The examples of the docstring. *)
Example measureNumberComesBefore_docstring :
  measureNumberComesBefore (py "23") (py "24") = Ok true ∧
  measureNumberComesBefore (py "23") (py "23") = Ok false ∧
  measureNumberComesBefore (py "23") (py "23a") = Ok true ∧
  measureNumberComesBefore (py "23a") (py "23b") = Ok true ∧
  measureNumberComesBefore (py "23b") (py "23a") = Ok false ∧
  measureNumberComesBefore (py "23b") (py "24a") = Ok true ∧
  measureNumberComesBefore (py "23b") (py "23b") = Ok false.
Proof. repeat split; by vm_compute. Qed.

(** [int] reads the decimal digits of any script, here an Arabic-Indic
    three, and no other numeric character, here a superscript two. *)
Example measureNumberComesBefore_other_digits :
  measureNumberComesBefore [1635] (py "4") = Ok true ∧
  measureNumberComesBefore [50; 178] (py "3") = Raise ValueError.
Proof. split; by vm_compute. Qed.

(** [int] reads 4300 digits and no more. *)
Example int_max_str_digits :
  int (replicate 4300 49) = Ok ((10 ^ 4300 - 1) / 9)%Z ∧
  int (replicate 4301 49) = Raise ValueError ∧
  measureNumberComesBefore (replicate 4301 49) (py "1") = Raise ValueError.
Proof. split; [|split]; by vm_compute. Qed.

(** *** The order on strings *)

Lemma str_ltb_irrefl (a : str) : str_ltb a a = false.
Proof.
  induction a as [|x a IH]; simpl; [done|].
  by rewrite N.ltb_irrefl.
Qed.

Lemma str_ltb_trans (a b c : str) :
  str_ltb a b = true → str_ltb b c = true → str_ltb a c = true.
Proof.
  revert b c. induction a as [|x a IH]; intros [|y b] [|z c]; simpl; try done.
  destruct (N.ltb_spec x y), (N.ltb_spec y x), (N.ltb_spec y z),
    (N.ltb_spec z y), (N.ltb_spec x z), (N.ltb_spec z x);
    try done; try lia; eauto.
Qed.

Lemma str_ltb_total (a b : str) :
  str_ltb a b = false → str_ltb b a = false → a = b.
Proof.
  revert b. induction a as [|x a IH]; intros [|y b]; simpl; try done.
  destruct (N.ltb_spec x y), (N.ltb_spec y x); try done; try lia.
  intros. assert (x = y) as -> by lia. f_equal. eauto.
Qed.

Lemma str_ltb_asym (a b : str) : str_ltb a b = true → str_ltb b a = false.
Proof.
  intros Hab. destruct (str_ltb b a) eqn:Hba; [|done].
  by rewrite <-(str_ltb_irrefl a), <-(str_ltb_trans _ _ _ Hab Hba).
Qed.

(** *** Reading the numeric part *)

(** The numeric part is made of numeric characters, and a numeric character
    is no blank, sign or underscore: [int] has nothing to strip or skip
    in it. *)
Lemma leading_numeric_isnumeric (s : str) :
  Forall (λ c, isnumeric c = true) (leading_numeric s).
Proof.
  induction s as [|c s IH]; simpl; [constructor|].
  destruct (isnumeric c) eqn:Hc; by constructor.
Qed.

Lemma in_ranges_apart (t1 t2 : list (N * N)) (c : char) :
  ranges_apart t1 t2 = true → in_ranges t1 c = true → in_ranges t2 c = false.
Proof.
  unfold ranges_apart, in_ranges. intros Hap Hin.
  apply existsb_exists in Hin as (r & Hr & Hc).
  rewrite forallb_forall in Hap. specialize (Hap r Hr).
  rewrite forallb_forall in Hap.
  destruct (existsb _ t2) eqn:Hex; [|done].
  apply existsb_exists in Hex as (w & Hw & Hc'). specialize (Hap w Hw).
  apply andb_true_iff in Hc as [?%N.leb_le ?%N.leb_le].
  apply andb_true_iff in Hc' as [?%N.leb_le ?%N.leb_le].
  apply orb_true_iff in Hap as [?%N.ltb_lt|?%N.ltb_lt]; lia.
Qed.

Lemma isnumeric_no_blank_sign_underscore (c : char) :
  isnumeric c = true →
  isspace c = false ∧ c ≠ 43 ∧ c ≠ 45 ∧ c ≠ 95.
Proof.
  intros Hc.
  assert (in_ranges (decimal_table ++ other_numeric_table) c = true) as Hin.
  { unfold isnumeric, isdecimal, in_ranges in *. by rewrite existsb_app. }
  assert (in_ranges (whitespace_table ++ [(43, 43); (45, 45); (95, 95)]) c
          = false) as Hout.
  { eapply in_ranges_apart; [|exact Hin]. by vm_compute. }
  unfold in_ranges in Hout. rewrite existsb_app in Hout.
  apply orb_false_iff in Hout as [Hsp Hrest]. split; [exact Hsp|].
  cbn [existsb fst snd] in Hrest.
  repeat split; intros ->; by vm_compute in Hrest.
Qed.

Lemma int_digits_None (s : str) :
  foldl (λ acc c, n ← acc; d ← decimal_value c; Some (10 * n + d)) None s
  = None.
Proof. by induction s. Qed.

Lemma decimal_value_None (c : char) :
  isdecimal c = false → decimal_value c = None.
Proof.
  unfold isdecimal, in_ranges, decimal_value.
  induction decimal_table as [|r t IH]; simpl; [done|].
  destruct ((r.1 <=? c) && (c <=? r.2)); [done|]. exact IH.
Qed.

Lemma int_only_ValueError (s : str) (e : exn) :
  int s = Raise e → e = ValueError.
Proof.
  unfold int. destruct s; [congruence|].
  destruct (max_str_digits <? _); [congruence|].
  destruct (int_digits _); simpl; congruence.
Qed.

Lemma int_no_leading_decimal (s : str) :
  leading_decimal s = [] → int (leading_numeric s) = Raise ValueError.
Proof.
  destruct s as [|c s]; [done|]. cbn [leading_decimal leading_numeric].
  destruct (isdecimal c) eqn:Hc; [done|]. intros _.
  unfold isnumeric. rewrite Hc. cbn [orb].
  destruct (in_ranges other_numeric_table c); [|done].
  unfold int. destruct (max_str_digits <? _); [done|].
  unfold int_digits. cbn [foldl mbind option_bind].
  by rewrite (decimal_value_None c Hc), int_digits_None.
Qed.

(** What the function returns on different identifiers whose numeric
    parts are read without error. *)
Lemma measureNumberComesBefore_read (a b : str) (n1 n2 : Z) :
  a ≠ b →
  int (splitSuffix a).1 = Ok n1 → int (splitSuffix b).1 = Ok n2 →
  measureNumberComesBefore a b =
    Ok (if negb (n1 =? n2)%Z then (n1 <? n2)%Z
        else negb (str_ltb (splitSuffix b).2 (splitSuffix a).2)).
Proof.
  intros Hne H1 H2. unfold measureNumberComesBefore.
  rewrite decide_False by done.
  destruct (splitSuffix a) as [na sa], (splitSuffix b) as [nb sb].
  simpl in *. rewrite H1, H2. simpl.
  destruct (negb (n1 =? n2)%Z); [done|].
  unfold sorted. simpl. by destruct (str_ltb sb sa).
Qed.

Lemma measureNumberComesBefore_Ok_read (a b : str) (r : bool) :
  a ≠ b → measureNumberComesBefore a b = Ok r →
  ∃ n1 n2, int (splitSuffix a).1 = Ok n1 ∧ int (splitSuffix b).1 = Ok n2.
Proof.
  intros Hne. unfold measureNumberComesBefore.
  rewrite decide_False by done.
  destruct (splitSuffix a) as [na sa], (splitSuffix b) as [nb sb]. simpl.
  destruct (int na) as [n1|]; [|done]. destruct (int nb) as [n2|]; [|done].
  eauto.
Qed.

(** X4: the strict order holds between identifiers that differ: the
    function is transitive as soon as the two ends are different strings. *)
Lemma measureNumberComesBefore_trans_distinct (x y z : str) :
  x ≠ z →
  measureNumberComesBefore x y = Ok true →
  measureNumberComesBefore y z = Ok true →
  measureNumberComesBefore x z = Ok true.
Proof.
  intros Hxz Hxy Hyz.
  assert (x ≠ y) as Hne1.
  { intros ->. unfold measureNumberComesBefore in Hxy.
    by rewrite decide_True in Hxy. }
  assert (y ≠ z) as Hne2.
  { intros ->. unfold measureNumberComesBefore in Hyz.
    by rewrite decide_True in Hyz. }
  destruct (measureNumberComesBefore_Ok_read _ _ _ Hne1 Hxy)
    as (n1 & n2 & H1 & H2).
  destruct (measureNumberComesBefore_Ok_read _ _ _ Hne2 Hyz)
    as (n2' & n3 & H2' & H3).
  assert (n2' = n2) as -> by congruence.
  rewrite (measureNumberComesBefore_read _ _ _ _ Hne1 H1 H2) in Hxy.
  rewrite (measureNumberComesBefore_read _ _ _ _ Hne2 H2 H3) in Hyz.
  rewrite (measureNumberComesBefore_read _ _ _ _ Hxz H1 H3).
  set (sx := (splitSuffix x).2) in *. set (sy := (splitSuffix y).2) in *.
  set (sz := (splitSuffix z).2) in *. clearbody sx sy sz.
  f_equal. injection Hxy as Hxy. injection Hyz as Hyz.
  destruct (Z.eqb_spec n1 n2), (Z.eqb_spec n2 n3), (Z.eqb_spec n1 n3);
    cbn [negb] in *; rewrite ?Z.ltb_lt in *; try lia.
  destruct (str_ltb sz sx) eqn:Hzx; [|done].
  destruct (str_ltb sy sx) eqn:Hyx; [done|].
  destruct (str_ltb sz sy) eqn:Hzy; [done|].
  destruct (str_ltb sx sy) eqn:Hxy'.
  - by rewrite (str_ltb_trans _ _ _ Hzx Hxy') in Hzy.
  - rewrite (str_ltb_total _ _ Hxy' Hyx) in Hzx. by rewrite Hzx in Hzy.
Qed.

(** Between two identifiers that are read without error and differ in the
    number read or in the suffix, exactly one direction holds. *)
Lemma measureNumberComesBefore_one_direction (x y : str) (n1 n2 : Z) :
  int (splitSuffix x).1 = Ok n1 → int (splitSuffix y).1 = Ok n2 →
  (n1, (splitSuffix x).2) ≠ (n2, (splitSuffix y).2) →
  measureNumberComesBefore x y = Ok true
    ∧ measureNumberComesBefore y x = Ok false
  ∨ measureNumberComesBefore x y = Ok false
    ∧ measureNumberComesBefore y x = Ok true.
Proof.
  intros H1 H2 Hk.
  assert (x ≠ y) as Hne by (intros ->; apply Hk; congruence).
  rewrite (measureNumberComesBefore_read _ _ _ _ Hne H1 H2).
  rewrite (measureNumberComesBefore_read y x n2 n1) by done.
  set (sx := (splitSuffix x).2) in *. set (sy := (splitSuffix y).2) in *.
  clearbody sx sy.
  destruct (Z.eqb_spec n1 n2) as [->|].
  - rewrite Z.eqb_refl. cbn [negb].
    destruct (str_ltb sy sx) eqn:Hyx.
    + rewrite (str_ltb_asym _ _ Hyx). by right.
    + destruct (str_ltb sx sy) eqn:Hxy; [by left|].
      destruct Hk. by rewrite (str_ltb_total _ _ Hxy Hyx).
  - destruct (Z.eqb_spec n2 n1); [lia|]. cbn [negb].
    destruct (Z.ltb_spec n1 n2), (Z.ltb_spec n2 n1); try lia; auto.
Qed.

(** Two different identifiers with the same number and the same suffix,
    as ['01'] and ['1'] are, precede each other. *)
Lemma measureNumberComesBefore_same_number_and_suffix (x y : str) (n : Z) :
  x ≠ y →
  int (splitSuffix x).1 = Ok n → int (splitSuffix y).1 = Ok n →
  (splitSuffix x).2 = (splitSuffix y).2 →
  measureNumberComesBefore x y = Ok true ∧
  measureNumberComesBefore y x = Ok true.
Proof.
  intros Hne Hx Hy Hs.
  rewrite (measureNumberComesBefore_read x y n n) by done.
  rewrite (measureNumberComesBefore_read y x n n) by done.
  by rewrite Z.eqb_refl, Hs, str_ltb_irrefl.
Qed.

(** C1 (the code departs from the claim): ['01'] and ['1'] are different
    identifiers, each with a leading run of decimal digits, the same number
    and the same empty suffix.  The function answers True for both orders,
    so two of the three alternatives of the trichotomy hold at once. *)
Theorem measureNumberComesBefore_leading_zero_both_orders :
  leading_decimal (py "01") ≠ [] ∧ leading_decimal (py "1") ≠ [] ∧
  py "01" ≠ py "1" ∧
  measureNumberComesBefore (py "01") (py "1") = Ok true ∧
  measureNumberComesBefore (py "1") (py "01") = Ok true.
Proof. repeat split; by vm_compute. Qed.

(** C2 (the code departs from the claim): with x = ['01'], y = ['1'] and
    z = ['01'] the function answers True for (x, y) and for (y, z) and False
    for (x, z): the chain is not transitive. *)
Theorem measureNumberComesBefore_leading_zero_chain :
  leading_decimal (py "01") ≠ [] ∧ leading_decimal (py "1") ≠ [] ∧
  measureNumberComesBefore (py "01") (py "1") = Ok true ∧
  measureNumberComesBefore (py "1") (py "01") = Ok true ∧
  measureNumberComesBefore (py "01") (py "01") = Ok false.
Proof. repeat split; by vm_compute. Qed.

(** C9: on equal strings the function returns False without raising,
    whatever the string; on two different strings of which at least one has
    no leading decimal digit it raises ValueError, from [int]. *)
Theorem measureNumberComesBefore_no_leading_digit (a b : str) :
  measureNumberComesBefore a a = Ok false ∧
  (a ≠ b → leading_decimal a = [] ∨ leading_decimal b = [] →
   measureNumberComesBefore a b = Raise ValueError).
Proof.
  split.
  { unfold measureNumberComesBefore. by rewrite decide_True. }
  intros Hne Hlead. unfold measureNumberComesBefore.
  rewrite decide_False by done. unfold splitSuffix.
  destruct Hlead as [Ha|Hb].
  - by rewrite (int_no_leading_decimal a Ha).
  - rewrite (int_no_leading_decimal b Hb).
    destruct (int (leading_numeric a)) as [n1|e] eqn:He; simpl; [done|].
    by rewrite (int_only_ValueError _ _ He).
Qed.

Lemma measureNumberComesBefore_no_leading_digit_witness :
  measureNumberComesBefore (py "12") (py "12") = Ok false ∧
  measureNumberComesBefore (py "12") (py "a1") = Raise ValueError.
Proof.
  destruct (measureNumberComesBefore_no_leading_digit (py "12") (py "a1"))
    as [Heq Hraise].
  split; [exact Heq|]. apply Hraise; [by vm_compute|]. right. by vm_compute.
Defined.

Example dumpString_accidental :
  fst <$> dumpString 0%nat false {[ 0%nat := leaf (py "accidental") None ]}
  = Some (Ok (py "<accidental />")).
Proof. by vm_compute. Qed.

Example dumpString_accidental_text :
  fst <$> dumpString 0%nat false
            {[ 0%nat := leaf (py "accidental") (Some [8710]) ]}
  = Some (Ok (py "<accidental>" ++ [8710] ++ py "</accidental>")).
Proof. by vm_compute. Qed.

(** ** dumpString and indent *)

(** *** Induction on trees *)

Lemma Element_ind' (P : Element → Prop) :
  (∀ tg attrs tx tl cs, Forall P cs → P (mkElement tg attrs tx tl cs)) →
  ∀ elem, P elem.
Proof.
  intros step. fix IH 1. intros [tg attrs tx tl cs]. apply step.
  induction cs as [|c cs IHcs]; constructor; [apply IH|exact IHcs].
Qed.

(** *** The store *)

Lemma dumpString_copy (obj : ref) (σ : store) (t : Element) :
  σ !! obj = Some t →
  dumpString obj false σ =
    Some (xStr ← et_tostring (canonical t); Ok (rstrip xStr),
          <[fresh (dom σ) := canonical t]> σ).
Proof.
  intros Hobj. unfold dumpString, deepcopy, in_place. rewrite Hobj. simpl.
  rewrite lookup_insert_eq. simpl. rewrite lookup_insert_eq. simpl.
  rewrite lookup_insert_eq. simpl. by rewrite !insert_insert_eq.
Qed.

Lemma dumpString_noCopy (obj : ref) (σ : store) (t : Element) :
  σ !! obj = Some t →
  dumpString obj true σ =
    Some (xStr ← et_tostring (canonical t); Ok (rstrip xStr),
          <[obj := canonical t]> σ).
Proof.
  intros Hobj. unfold dumpString, in_place. rewrite Hobj. simpl.
  rewrite Hobj. simpl. rewrite lookup_insert_eq. simpl.
  rewrite lookup_insert_eq. simpl. by rewrite !insert_insert_eq.
Qed.

(** C8: called with the copy ([noCopy] false) on an element of the store,
    [dumpString] returns and leaves every object the caller had as it was,
    the element it was given first: tag, attributes, text, tail and
    children of the whole tree are those of before the call. *)
Theorem dumpString_copy_leaves_tree (obj : ref) (σ : store) (t : Element) :
  σ !! obj = Some t →
  ∃ xStr σ',
    dumpString obj false σ = Some (xStr, σ') ∧
    σ' !! obj = Some t ∧
    ∀ r, r ∈ dom σ → σ' !! r = σ !! r.
Proof.
  intros Hobj. eexists _, _. split; [by apply dumpString_copy|].
  assert (∀ r, r ∈ dom σ → fresh (dom σ) ≠ r) as Hfresh.
  { intros r Hr Heq. rewrite <-Heq in Hr. by apply (is_fresh (dom σ)). }
  split.
  - rewrite lookup_insert_ne; [done|]. apply Hfresh, elem_of_dom. eauto.
  - intros r Hr. rewrite lookup_insert_ne; [done|]. by apply Hfresh.
Qed.

Lemma dumpString_copy_leaves_tree_witness :
  ∃ xStr σ',
    dumpString 0%nat false {[ 0%nat := clef_sign_line ]} = Some (xStr, σ') ∧
    σ' !! 0%nat = Some clef_sign_line ∧
    ∀ r, r ∈ dom ({[ 0%nat := clef_sign_line ]} : gmap nat Element) →
         σ' !! r = ({[ 0%nat := clef_sign_line ]} : gmap nat Element) !! r.
Proof.
  apply (dumpString_copy_leaves_tree 0%nat {[ 0%nat := clef_sign_line ]}
           clef_sign_line).
  reflexivity.
Defined.

(** Without the copy the element of the caller is the one indented and
    sorted. *)
Lemma dumpString_noCopy_changes_tree (obj : ref) (σ : store) (t : Element) :
  σ !! obj = Some t →
  ∃ xStr σ',
    dumpString obj true σ = Some (xStr, σ') ∧ σ' !! obj = Some (canonical t).
Proof.
  intros Hobj. eexists _, _. split; [by apply dumpString_noCopy|].
  by rewrite lookup_insert_eq.
Qed.

(** *** Sorting *)

Section sorted_facts.
Context {A : Type} (ltb : A → A → bool).

Lemma sorted_insert_Permutation (x : A) (l : list A) :
  sorted_insert ltb x l ≡ₚ x :: l.
Proof.
  induction l as [|y l IH]; simpl; [done|].
  destruct (ltb y x); [|done]. rewrite IH. apply Permutation_swap.
Qed.

Lemma sorted_Permutation (l : list A) : sorted ltb l ≡ₚ l.
Proof.
  induction l as [|x l IH]; simpl; [done|].
  by rewrite sorted_insert_Permutation, IH.
Qed.

Hypothesis ltb_asym : ∀ x y, ltb x y = true → ltb y x = false.
Hypothesis leb_trans :
  ∀ x y z, ltb y x = false → ltb z y = false → ltb z x = false.

Lemma sorted_insert_StronglySorted (x : A) (l : list A) :
  StronglySorted (λ a b, ltb b a = false) l →
  StronglySorted (λ a b, ltb b a = false) (sorted_insert ltb x l).
Proof.
  induction 1 as [|y l Hl IH Hy]; simpl; [by repeat constructor|].
  destruct (ltb y x) eqn:Hyx.
  - constructor; [done|]. rewrite sorted_insert_Permutation.
    constructor; [by apply ltb_asym|done].
  - constructor; [by constructor|]. constructor; [done|].
    eapply Forall_impl; [exact Hy|]. intros z Hz. by eapply leb_trans.
Qed.

Lemma sorted_StronglySorted (l : list A) :
  StronglySorted (λ a b, ltb b a = false) (sorted ltb l).
Proof.
  induction l as [|x l IH]; simpl; [constructor|].
  by apply sorted_insert_StronglySorted.
Qed.
End sorted_facts.

Lemma str_leb_trans (x y z : str) :
  str_ltb y x = false → str_ltb z y = false → str_ltb z x = false.
Proof.
  intros Hyx Hzy. destruct (str_ltb z x) eqn:Hzx; [|done].
  destruct (str_ltb x y) eqn:Hxy.
  - by rewrite (str_ltb_trans _ _ _ Hzx Hxy) in Hzy.
  - rewrite (str_ltb_total _ _ Hxy Hyx) in Hzx. by rewrite Hzx in Hzy.
Qed.

(** *** Dictionaries *)

Lemma dict_get_set {V} (d : list (str * V)) (k : str) (v : V) :
  dict_get (dict_set d k v) k = Some v.
Proof.
  unfold dict_get. induction d as [|kv d IH]; simpl.
  { by rewrite bool_decide_true. }
  destruct (decide (kv.1 = k)) as [Hk|Hk]; simpl.
  - by rewrite bool_decide_true.
  - by rewrite bool_decide_false.
Qed.

Lemma dict_get_set_ne {V} (d : list (str * V)) (k k' : str) (v : V) :
  k ≠ k' → dict_get (dict_set d k v) k' = dict_get d k'.
Proof.
  intros Hne. unfold dict_get. induction d as [|kv d IH]; simpl.
  { by rewrite bool_decide_false. }
  destruct (decide (kv.1 = k)) as [Hk|Hk]; simpl.
  - rewrite Hk. by rewrite !bool_decide_false.
  - destruct (bool_decide (kv.1 = k')); [done|]. exact IH.
Qed.

Lemma dict_set_length {V} (d : list (str * V)) (k : str) (v : V) :
  is_Some (dict_get d k) → length (dict_set d k v) = length d.
Proof.
  unfold dict_get. induction d as [|kv d IH]; simpl.
  { by intros [? ?]. }
  destruct (decide (kv.1 = k)) as [Hk|Hk]; simpl; [done|].
  rewrite bool_decide_false by done. intros Hd. by rewrite IH.
Qed.

Lemma dict_set_fresh {V} (d : list (str * V)) (k : str) (v : V) :
  k ∉ d.*1 → dict_set d k v = d ++ [(k, v)].
Proof.
  induction d as [|kv d IH]; simpl; [done|]. intros Hk.
  rewrite not_elem_of_cons in Hk. destruct Hk as [Hne Hk].
  rewrite decide_False by done. by rewrite IH.
Qed.

Lemma dict_update_NoDup {V} (d items : list (str * V)) :
  NoDup (d ++ items).*1 → dict_update d items = d ++ items.
Proof.
  revert d. induction items as [|[k v] items IH]; intros d Hnd; simpl.
  { by rewrite app_nil_r. }
  assert (d ++ (k, v) :: items = (d ++ [(k, v)]) ++ items) as Heq
    by (by rewrite <-(assoc_L (++))).
  rewrite Heq in Hnd |- *.
  change (foldl _ (dict_set d k v) items)
    with (dict_update (dict_set d k v) items).
  rewrite dict_set_fresh; [by apply IH|].
  rewrite !fmap_app in Hnd. apply NoDup_app in Hnd as [Hnd _].
  apply NoDup_app in Hnd as (_ & Hk & _). intros Hin.
  apply (Hk k Hin). simpl. left.
Qed.

Lemma NoDup_fst_eq {V} (l : list (str * V)) (x y : str * V) :
  NoDup l.*1 → x ∈ l → y ∈ l → x.1 = y.1 → x = y.
Proof.
  induction l as [|z l IH]; simpl; [by intros _ ?%elem_of_nil|].
  intros [Hz Hnd]%NoDup_cons [->|Hx]%elem_of_cons [->|Hy]%elem_of_cons Heq;
    [done| | |by apply IH].
  - destruct Hz. rewrite Heq. by apply list_elem_of_fmap_2.
  - destruct Hz. rewrite <-Heq. by apply list_elem_of_fmap_2.
Qed.

Lemma sort_attrib_sorted_keys (attrs : list (str * PyValue)) :
  NoDup attrs.*1 →
  sort_attrib attrs =
    if (1 <? length attrs)%nat
    then sorted (λ a b : str * PyValue, str_ltb a.1 b.1) attrs else attrs.
Proof.
  intros Hnd. unfold sort_attrib. destruct (1 <? length attrs)%nat; [|done].
  apply (dict_update_NoDup []). simpl. by rewrite sorted_Permutation.
Qed.

(** The attribute names of an element are strictly ascending after the
    loop. *)
Lemma sort_attrib_ascending (attrs : list (str * PyValue)) :
  NoDup attrs.*1 → StronglySorted str_lt (sort_attrib attrs).*1.
Proof.
  intros Hnd. rewrite sort_attrib_sorted_keys by done.
  destruct (1 <? length attrs)%nat eqn:Hlen.
  - assert (NoDup (sorted (λ a b : str * PyValue, str_ltb a.1 b.1) attrs).*1)
      as Hnd' by (by rewrite sorted_Permutation).
    pose proof (sorted_StronglySorted
      (λ a b : str * PyValue, str_ltb a.1 b.1)
      (λ x y, str_ltb_asym x.1 y.1)
      (λ x y z, str_leb_trans x.1 y.1 z.1) attrs) as Hs.
    induction Hs as [|x l Hl IH Hx]; simpl; constructor.
    + apply IH. by apply NoDup_cons in Hnd' as [_ ?].
    + apply NoDup_cons in Hnd' as [Hx' _]. apply Forall_fmap, Forall_forall.
      intros y Hy. rewrite Forall_forall in Hx. pose proof (Hx y Hy) as Hle.
      simpl in *. unfold str_lt.
      destruct (str_ltb x.1 y.1) eqn:Hxy; [done|]. destruct Hx'.
      rewrite (str_ltb_total _ _ Hxy Hle). by apply list_elem_of_fmap_2.
  - destruct attrs as [|x [|y attrs]]; simpl in *; try done;
      repeat constructor.
Qed.

(** The loop gives the same items for two insertion orders. *)
Lemma sort_attrib_Permutation (attrs1 attrs2 : list (str * PyValue)) :
  NoDup attrs1.*1 → attrs1 ≡ₚ attrs2 → sort_attrib attrs1 = sort_attrib attrs2.
Proof.
  intros Hnd Hperm.
  assert (NoDup attrs2.*1) as Hnd2 by (by rewrite <-Hperm).
  rewrite !sort_attrib_sorted_keys by done.
  rewrite <-(Permutation_length Hperm).
  destruct (1 <? length attrs1)%nat eqn:Hlen.
  - apply (StronglySorted_unique_strong
             (λ a b : str * PyValue, str_ltb b.1 a.1 = false)).
    + intros x1 x2 Hx1 Hx2 H12 H21.
      rewrite sorted_Permutation in Hx1, Hx2. rewrite <-Hperm in Hx2.
      apply (NoDup_fst_eq attrs1); [done..|]. by apply str_ltb_total.
    + apply (sorted_StronglySorted _ (λ x y, str_ltb_asym x.1 y.1)
               (λ x y z, str_leb_trans x.1 y.1 z.1)).
    + apply (sorted_StronglySorted _ (λ x y, str_ltb_asym x.1 y.1)
               (λ x y z, str_leb_trans x.1 y.1 z.1)).
    + by rewrite !sorted_Permutation.
  - destruct attrs1 as [|x [|y attrs1]]; simpl in *; try done.
    + by apply Permutation_nil in Hperm.
    + by apply Permutation_singleton_l in Hperm.
Qed.

(** *** indent and the loop on trees *)

Lemma indent_leaf tg attrs tx tl (level : nat) :
  indent (mkElement tg attrs tx tl []) level =
    if negb (level =? 0)%nat && blank tl
    then mkElement tg attrs tx (Some (10 :: str_repeat level (py "  "))) []
    else mkElement tg attrs tx tl [].
Proof. simpl. by destruct (negb (level =? 0)%nat && blank tl). Qed.

Lemma indent_node tg attrs tx tl cs (level : nat) :
  cs ≠ [] →
  indent (mkElement tg attrs tx tl cs) level =
    let i := 10 :: str_repeat level (py "  ") in
    let tail1 := if blank tl then Some i else tl in
    mkElement tg attrs
      (if blank tx then Some (i ++ py "  ") else tx)
      (if blank tail1 then Some i else tail1)
      (set_last_tail i ((λ subElem, indent subElem (S level)) <$> cs)).
Proof. by destruct cs. Qed.

Lemma iter_set_tail (x : option str) (e : Element) :
  iter (set_tail x e) = set_tail x e :: (children e ≫= iter).
Proof. by destruct e. Qed.

Lemma set_last_tail_fmap (f : Element → Element) (i : str) (l : list Element) :
  (∀ x e, f (set_tail x e) = set_tail x (f e)) →
  f <$> set_last_tail i l = set_last_tail i (f <$> l).
Proof.
  intros Hf. induction l as [|e l IH]; [done|].
  destruct l as [|e' l]; [simpl; by rewrite Hf|].
  change (set_last_tail i (e :: e' :: l)) with (e :: set_last_tail i (e' :: l)).
  rewrite fmap_cons, IH. done.
Qed.

Lemma Forall_set_last_tail (R : Element → Prop) (i : str) (l : list Element) :
  (∀ x e, R e → R (set_tail x e)) →
  Forall R l → Forall R (set_last_tail i l).
Proof.
  intros HR. induction 1 as [|e l He Hl IH]; [constructor|].
  destruct l as [|e' l]; [by repeat constructor; apply HR|].
  change (set_last_tail i (e :: e' :: l)) with (e :: set_last_tail i (e' :: l)).
  by constructor.
Qed.

Lemma length_set_last_tail (i : str) (l : list Element) :
  length (set_last_tail i l) = length l.
Proof.
  induction l as [|e l IH]; [done|]. destruct l as [|e' l]; [done|].
  change (set_last_tail i (e :: e' :: l)) with (e :: set_last_tail i (e' :: l)).
  simpl in *. by rewrite IH.
Qed.

Lemma last_set_last_tail (i : str) (l : list Element) :
  l ≠ [] → ∃ c, last l = Some c ∧ last (set_last_tail i l) = Some (set_tail (Some i) c).
Proof.
  induction l as [|e l IH]; [done|]. intros _.
  destruct l as [|e' l]; [by exists e|].
  destruct IH as (c & Hc & Hc'); [done|]. exists c. split; [done|].
  change (set_last_tail i (e :: e' :: l)) with (e :: set_last_tail i (e' :: l)).
  pose proof (length_set_last_tail i (e' :: l)) as Hlen.
  by destruct (set_last_tail i (e' :: l)).
Qed.

Lemma lookup_set_last_tail (i : str) (l : list Element) (k : nat) :
  (S k < length l)%nat → set_last_tail i l !! k = l !! k.
Proof.
  revert k. induction l as [|e l IH]; intros k Hk; [done|].
  destruct l as [|e' l]; [simpl in Hk; lia|].
  change (set_last_tail i (e :: e' :: l)) with (e :: set_last_tail i (e' :: l)).
  destruct k as [|k]; [done|]. simpl in Hk. apply IH. simpl. lia.
Qed.

Lemma sort_attributes_set_tail (x : option str) (e : Element) :
  sort_attributes (set_tail x e) = set_tail x (sort_attributes e).
Proof. by destruct e. Qed.

(** The loop touches attributes only and [indent] text and tails only:
    they commute. *)
Lemma sort_attributes_indent (t : Element) (level : nat) :
  sort_attributes (indent t level) = indent (sort_attributes t) level.
Proof.
  revert level. induction t as [tg attrs tx tl cs IH] using Element_ind'.
  intros level. destruct (decide (cs = [])) as [->|Hcs].
  - rewrite indent_leaf. simpl.
    by destruct (negb (level =? 0)%nat && blank tl).
  - rewrite indent_node by done.
    change (sort_attributes (mkElement tg attrs tx tl cs))
      with (mkElement tg (sort_attrib attrs) tx tl (sort_attributes <$> cs)).
    rewrite indent_node by (by destruct cs).
    cbn zeta. cbn [sort_attributes tag attrib text tail children]. f_equal.
    rewrite (set_last_tail_fmap sort_attributes)
      by apply sort_attributes_set_tail.
    f_equal. rewrite <-!list_fmap_compose. apply Forall_fmap_ext.
    eapply Forall_impl; [exact IH|]. intros c Hc. apply Hc.
Qed.

Lemma wf_Element_inv tg attrs tx tl cs :
  wf_Element (mkElement tg attrs tx tl cs) ↔
  NoDup attrs.*1 ∧ Forall wf_Element cs.
Proof.
  unfold wf_Element. simpl. by rewrite Forall_cons, Forall_bind.
Qed.

Lemma sort_attributes_ascending (t : Element) :
  wf_Element t →
  Forall (λ el, StronglySorted str_lt (attrib el).*1)
         (iter (sort_attributes t)).
Proof.
  induction t as [tg attrs tx tl cs IH] using Element_ind'.
  intros [Hnd Hcs]%wf_Element_inv. simpl. constructor.
  - by apply sort_attrib_ascending.
  - apply Forall_bind, Forall_fmap.
    rewrite Forall_forall in IH, Hcs |- *. intros c Hc. simpl.
    by apply IH, Hcs.
Qed.

Lemma sort_attributes_same (t1 t2 : Element) :
  wf_Element t1 → same_but_attrib_order t1 t2 →
  sort_attributes t1 = sort_attributes t2.
Proof.
  revert t2. induction t1 as [tg attrs tx tl cs IH] using Element_ind'.
  intros t2 [Hnd Hcs]%wf_Element_inv Hsame.
  inversion Hsame as [? ? attrs2 ? ? ? cs2 Hperm Hchildren]; subst.
  simpl. f_equal; [by apply sort_attrib_Permutation|].
  clear Hsame. induction Hchildren as [|c c2 cs cs2 Hc Hchildren IHc];
    [done|].
  apply Forall_cons in IH as [IH1 IH2]. apply Forall_cons in Hcs as [Hc1 Hc2].
  simpl. f_equal; [by apply IH1|by apply IHc].
Qed.

Lemma wf_Element_sort_attributes_indent (t : Element) (level : nat) :
  wf_Element t →
  Forall (λ el, StronglySorted str_lt (attrib el).*1)
         (iter (indent (sort_attributes t) level)).
Proof.
  intros Hwf. apply sort_attributes_ascending in Hwf.
  revert level Hwf. generalize (sort_attributes t). clear t.
  intros t. induction t as [tg attrs tx tl cs IH] using Element_ind'.
  intros level Hs. simpl in Hs. apply Forall_cons in Hs as [Hattrs Hs].
  rewrite Forall_bind in Hs.
  destruct (decide (cs = [])) as [->|Hcs].
  - rewrite indent_leaf.
    destruct (negb (level =? 0)%nat && blank tl); by repeat constructor.
  - rewrite indent_node by done. cbn zeta. simpl. constructor; [done|].
    apply Forall_bind, Forall_set_last_tail.
    + intros x e He. unfold compose in *. rewrite iter_set_tail.
      destruct e. simpl in *. by apply Forall_cons in He as [??]; constructor.
    + apply Forall_fmap. rewrite Forall_forall in IH, Hs |- *.
      intros c Hc. simpl. by apply IH, Hs.
Qed.

(** *** What the tree keeps *)

Lemma sort_attrib_Permutation_self (attrs : list (str * PyValue)) :
  NoDup attrs.*1 → sort_attrib attrs ≡ₚ attrs.
Proof.
  intros Hnd. rewrite sort_attrib_sorted_keys by done.
  destruct (1 <? length attrs)%nat; [apply sorted_Permutation|done].
Qed.

Lemma sort_attributes_tail (e : Element) :
  tail (sort_attributes e) = tail e.
Proof. by destruct e. Qed.

Lemma Forall2_set_last_tail {A} (Q : A → Element → Prop) (i : str)
    (l : list A) (l' : list Element) :
  (∀ x a e, Q a e → Q a (set_tail x e)) →
  Forall2 Q l l' → Forall2 Q l (set_last_tail i l').
Proof.
  intros HQ. induction 1 as [|a e l l' Hae Hl IH]; [constructor|].
  destruct l' as [|e' l'].
  - inversion Hl; subst. repeat constructor. by apply HQ.
  - change (set_last_tail i (e :: e' :: l'))
      with (e :: set_last_tail i (e' :: l')).
    by constructor.
Qed.

Lemma indent_tail_kept (t : Element) (level : nat) :
  blank (tail t) = false → tail (indent t level) = tail t.
Proof.
  destruct t as [tg attrs tx tl cs]. cbn [tail]. intros Hb.
  destruct (decide (cs = [])) as [->|Hcs].
  - rewrite indent_leaf, Hb. by rewrite andb_false_r.
  - rewrite indent_node by done. cbn zeta. cbn [tail]. by rewrite Hb, Hb.
Qed.

Lemma indent_same_content (t : Element) (level : nat) :
  Forall2 same_content (iter t) (iter (indent t level)).
Proof.
  revert level. induction t as [tg attrs tx tl cs IH] using Element_ind'.
  intros level. destruct (decide (cs = [])) as [->|Hcs].
  - rewrite indent_leaf.
    destruct (negb (level =? 0)%nat && blank tl); by repeat constructor.
  - rewrite indent_node by done. cbn zeta. cbn [iter children]. constructor.
    + unfold same_content. cbn [tag attrib text children].
      rewrite length_set_last_tail, length_fmap.
      split; [done|]. split; [done|]. split; [done|]. split.
      * intros [?|Hb]; [done|]. by rewrite Hb.
      * intros k c Hk Hlt Hb.
        rewrite lookup_set_last_tail by (by rewrite length_fmap).
        rewrite list_lookup_fmap, Hk. cbn [fmap option_fmap option_map].
        by rewrite indent_tail_kept.
    + apply Forall2_bind, Forall2_set_last_tail.
      * intros x c e He. rewrite iter_set_tail. destruct e. simpl in *.
        inversion He; subst. by constructor.
      * apply Forall2_fmap_r, Forall_Forall2_diag.
        eapply Forall_impl; [exact IH|]. intros c Hc. apply Hc.
Qed.

Lemma sort_attributes_same_content (t : Element) :
  wf_Element t → Forall2 same_content (iter t) (iter (sort_attributes t)).
Proof.
  induction t as [tg attrs tx tl cs IH] using Element_ind'.
  intros [Hnd Hcs]%wf_Element_inv. simpl. constructor.
  - unfold same_content. cbn [tag attrib text children].
    rewrite length_fmap.
    split; [done|]. split; [by apply sort_attrib_Permutation_self|].
    split; [done|]. split; [done|].
    intros k c Hk _ _. rewrite list_lookup_fmap, Hk.
    cbn [fmap option_fmap option_map]. by rewrite sort_attributes_tail.
  - apply Forall2_bind, Forall2_fmap_r, Forall_Forall2_diag.
    rewrite Forall_forall in IH, Hcs |- *. intros c Hc. simpl.
    by apply IH, Hcs.
Qed.

Lemma canonical_same_content (t : Element) :
  wf_Element t → Forall2 same_content (iter t) (iter (canonical t)).
Proof.
  intros Hwf. unfold canonical. rewrite sort_attributes_indent.
  eapply Forall2_trans;
    [|by apply sort_attributes_same_content|apply indent_same_content].
  intros a b c (Htag & Hattr & Hlen & Htext & Htail)
    (Htag' & Hattr' & Hlen' & Htext' & Htail').
  unfold same_content. rewrite Htag', Hattr', Hlen'.
  split; [done|]. split; [done|]. split; [done|]. split.
  - intros Hcond. rewrite <-(Htext Hcond). apply Htext'.
    destruct Hcond as [Hnil|Hb].
    + left. rewrite Hnil in Hlen. by destruct (children b).
    + right. by rewrite (Htext (or_intror Hb)).
  - intros k x Hk Hlt Hb. pose proof (Htail k x Hk Hlt Hb) as Hx.
    destruct (children b !! k) as [y|] eqn:Hy; [|done].
    injection Hx as Hx. rewrite <-Hx.
    apply Htail'; [done|by rewrite Hlen|by rewrite Hx].
Qed.

Lemma Forall2_and_r {A B} (R : A → B → Prop) (P : B → Prop)
    (l : list A) (l' : list B) :
  Forall2 R l l' → Forall P l' → Forall2 (λ x y, R x y ∧ P y) l l'.
Proof.
  induction 1 as [|x y l l' Hxy Hl IH]; [constructor|].
  intros [Hy Hl']%Forall_cons. constructor; [done|by apply IH].
Qed.

(** A property of the names holds of the tree serialized exactly when it
    holds of the tree given. *)
Lemma names_canonical (P : str → Prop) (t : Element) :
  wf_Element t → Forall P (names (canonical t)) ↔ Forall P (names t).
Proof.
  intros Hwf. pose proof (canonical_same_content t Hwf) as Hsame.
  unfold names. rewrite !Forall_bind. split; intros Hall.
  - eapply Forall2_Forall_l; [exact Hsame|].
    eapply Forall_impl; [exact Hall|].
    intros n' Hn' n (Htag & Hattr & _). unfold compose in *.
    rewrite <-Htag, <-Hattr. exact Hn'.
  - eapply Forall2_Forall_r; [exact Hsame|].
    eapply Forall_impl; [exact Hall|].
    intros n Hn n' (Htag & Hattr & _). unfold compose in *.
    rewrite Htag, Hattr. exact Hn.
Qed.

Lemma serialize_items_written (qnames : list (str * str))
    (items : list (str * PyValue)) (s : str) :
  serialize_items qnames items = Ok s →
  s = items ≫= λ kv, item_str (written_name qnames kv.1, kv.2).
Proof.
  unfold serialize_items. revert s.
  induction items as [|[k v] items IH]; intros s; cbn [foldr fst snd].
  { by intros [= <-]. }
  rewrite bind_cons. unfold item_str at 1, written_name at 1, qname_of.
  cbn [fst snd].
  destruct (escape_attrib v) as [v'|]; cbn [mbind outcome_bind]; [|done].
  destruct (dict_get qnames k) as [q|]; cbn [from_option mbind outcome_bind];
    [|done].
  destruct (foldr _ _ items) as [r|]; cbn [mbind outcome_bind]; [|done].
  intros [= <-]. rewrite <-(IH r) by done. cbn [default from_option id].
  by rewrite <-!(assoc_L (++)).
Qed.

(** What the serializer writes for an element starts with its tag and,
    after the declarations, its attributes in the order in which the
    element holds them. *)
Lemma serialize_xml_start_tag (qnames namespaces : list (str * str))
    (elem : Element) (s : str) :
  serialize_xml qnames namespaces elem = Ok s →
  ∃ xmlns rest,
    serialize_namespaces namespaces = Ok xmlns ∧
    s = py "<" ++ written_name qnames (tag elem) ++ xmlns
        ++ (attrib elem ≫= λ kv, item_str (written_name qnames kv.1, kv.2))
        ++ rest.
Proof.
  destruct elem as [tg attrs tx tl cs]. cbn [serialize_xml tag attrib].
  unfold written_name at 1, qname_of.
  destruct (dict_get qnames tg) as [q|]; cbn [from_option mbind outcome_bind];
    [|done].
  destruct (serialize_namespaces namespaces) as [xmlns|];
    cbn [mbind outcome_bind]; [|done].
  destruct (serialize_items qnames attrs) as [items|] eqn:Hitems;
    cbn [mbind outcome_bind]; [|done].
  apply serialize_items_written in Hitems as ->.
  destruct (foldr _ _ cs) as [inner|]; cbn [mbind outcome_bind]; [|done].
  intros [= <-]. eexists _, _. split; [done|]. cbn [default from_option id].
  reflexivity.
Qed.

(** *** The tables of the serializer *)

Lemma for_each_app {A S} (body : A → S → outcome S) (l1 l2 : list A) (st : S) :
  for_each body (l1 ++ l2) st = st' ← for_each body l1 st; for_each body l2 st'.
Proof.
  revert st. induction l1 as [|x l1 IH]; intros st; cbn [for_each app]; [done|].
  destruct (body x st) as [st'|e]; cbn [mbind outcome_bind]; [apply IH|done].
Qed.

Lemma for_each_ext {A S} (f g : A → S → outcome S) (l : list A) (st : S) :
  (∀ x st, f x st = g x st) → for_each f l st = for_each g l st.
Proof.
  intros Hfg. revert st. induction l as [|x l IH]; intros st; cbn [for_each];
    [done|].
  rewrite Hfg. destruct (g x st); cbn [mbind outcome_bind]; [apply IH|done].
Qed.

Lemma for_each_fmap {A B S} (body : B → S → outcome S) (f : A → B)
    (l : list A) (st : S) :
  for_each (λ x, body (f x)) l st = for_each body (f <$> l) st.
Proof.
  revert st. induction l as [|x l IH]; intros st; cbn [for_each fmap list_fmap];
    [done|].
  destruct (body (f x) st); cbn [mbind outcome_bind]; [apply IH|done].
Qed.

Lemma for_each_bind {A B S} (body : B → S → outcome S) (f : A → list B)
    (l : list A) (st : S) :
  for_each (λ x, for_each body (f x)) l st = for_each body (l ≫= f) st.
Proof.
  revert st. induction l as [|x l IH]; intros st; [done|].
  rewrite bind_cons, for_each_app. cbn [for_each].
  destruct (for_each body (f x) st); cbn [mbind outcome_bind]; [apply IH|done].
Qed.

(** The tables are filled from the names of the tree, one after the
    other. *)
Lemma namespaces_of_names (t : Element) :
  namespaces_of t = for_each note_qname (names t) ([], []).
Proof.
  unfold namespaces_of, names. rewrite <-for_each_bind.
  apply for_each_ext. intros el st. cbn [for_each].
  destruct (note_qname (tag el) st); cbn [mbind outcome_bind]; [|done].
  apply for_each_fmap.
Qed.

Lemma rsplit_brace_None (s : str) : rsplit_brace s = None ↔ 125 ∉ s.
Proof.
  induction s as [|c s IH]; cbn [rsplit_brace].
  { split; [intros _; apply not_elem_of_nil|done]. }
  rewrite not_elem_of_cons.
  destruct (rsplit_brace s) as [[uri tg]|].
  - split; [done|]. intros [_ Hs]. by apply IH in Hs.
  - destruct (decide (c = 125)) as [->|Hc].
    + split; [done|]. by intros [? _].
    + split; [|done]. intros _. split; [done|]. by apply IH.
Qed.

(** What [add_qname] does to the tables. *)
Lemma add_qname_Ok (name : str) (qnames namespaces : list (str * str)) :
  closed_name name →
  ∃ q namespaces',
    add_qname name (qnames, namespaces)
      = Ok (dict_set qnames name q, namespaces') ∧
    (plain_name name → q = name ∧ namespaces' = namespaces).
Proof.
  unfold closed_name, plain_name, add_qname. intros Hclosed.
  destruct (decide (take 1 name = [123])) as [Hq|Hq].
  - destruct (rsplit_brace (drop 1 name)) as [[uri tg]|] eqn:Hsplit.
    + destruct (dict_get namespaces uri) as [prefix|].
      * eexists _, _. by split.
      * eexists _, _. by split.
    + apply rsplit_brace_None in Hsplit. by destruct Hsplit; apply Hclosed.
  - eexists _, _. by split.
Qed.

Lemma add_qname_Raise (name : str) (tables : list (str * str) * list (str * str))
    (e : exn) :
  add_qname name tables = Raise e → e = ValueError ∧ ¬ closed_name name.
Proof.
  unfold closed_name, add_qname. destruct tables as [qnames namespaces].
  destruct (decide (take 1 name = [123])) as [Hq|Hq]; [|done].
  destruct (rsplit_brace (drop 1 name)) as [[uri tg]|] eqn:Hsplit.
  - by destruct (dict_get namespaces uri).
  - intros [= <-]. split; [done|]. apply rsplit_brace_None in Hsplit. auto.
Qed.

(** What the loop over the names leaves in the tables: an entry that was
    there stays as it is, every name met has an entry, names that are not
    qualified stand for themselves and add no prefix. *)
Lemma for_each_note_qname (l : list str)
    (st st' : list (str * str) * list (str * str)) :
  for_each note_qname l st = Ok st' →
  (∀ name, is_Some (dict_get st.1 name) →
     dict_get st'.1 name = dict_get st.1 name) ∧
  (∀ name, name ∈ l → is_Some (dict_get st'.1 name)) ∧
  (plain_entries st.1 → plain_entries st'.1) ∧
  (Forall plain_name l → st'.2 = st.2) ∧
  ((∀ name, is_Some (dict_get st.1 name) → closed_name name) →
   Forall closed_name l).
Proof.
  revert st. induction l as [|name l IH]; intros st; cbn [for_each].
  { intros [= <-]. repeat split; try done. by intros ? ?%elem_of_nil. }
  destruct (note_qname name st) as [st0|e0] eqn:Hnote;
    cbn [mbind outcome_bind]; [|done].
  unfold note_qname in Hnote.
  destruct (dict_get st.1 name) as [q|] eqn:Hget.
  - injection Hnote as <-.
    intros Hrest. destruct (IH _ Hrest) as (Hkeep & Hin & Hplain & Hns & Hcl).
    split; [done|]. split.
    { intros m [->|Hm]%elem_of_cons; [|by apply Hin].
      rewrite Hkeep; by rewrite Hget. }
    split; [done|]. split; [by intros [_ ?]%Forall_cons; apply Hns|].
    intros Hst. constructor; [|by apply Hcl]. apply Hst. by rewrite Hget.
  - destruct st as [qnames namespaces]. cbn [fst snd] in *.
    rename Hnote into Hadd.
    intros Hrest. destruct (IH _ Hrest) as (Hkeep & Hin & Hplain & Hns & Hcl).
    assert (closed_name name) as Hclosed.
    { destruct (decide (take 1 name = [123])) as [Hq|Hq]; [|by intros ?].
      unfold add_qname in Hadd. rewrite decide_True in Hadd by done.
      destruct (rsplit_brace (drop 1 name)) as [[uri tg]|] eqn:Hsplit;
        [|done].
      intros _. destruct (decide (125 ∈ drop 1 name)) as [|Hnot]; [done|].
      apply rsplit_brace_None in Hnot. congruence. }
    destruct (add_qname_Ok name qnames namespaces Hclosed)
      as (q & namespaces' & Hadd' & Hq).
    rewrite Hadd' in Hadd. injection Hadd as <-. cbn [fst snd] in *.
    assert (∀ m, is_Some (dict_get qnames m) →
                 dict_get (dict_set qnames name q) m = dict_get qnames m)
      as Hold.
    { intros m Hm. apply dict_get_set_ne. intros <-. rewrite Hget in Hm.
      by destruct Hm. }
    repeat split.
    + intros m Hm. rewrite Hkeep; [by apply Hold|]. by rewrite Hold.
    + intros m [->|Hm]%elem_of_cons; [|by apply Hin].
      rewrite Hkeep; rewrite dict_get_set; by eexists.
    + intros Hst. apply Hplain. intros m q' Hm Hpl.
      destruct (decide (name = m)) as [->|Hne].
      * rewrite dict_get_set in Hm. injection Hm as <-. by apply Hq.
      * rewrite dict_get_set_ne in Hm by done. by apply Hst.
    + intros [Hpl Hl]%Forall_cons. rewrite Hns by done. by apply Hq.
    + intros Hst. constructor; [done|]. apply Hcl. intros m Hm.
      destruct (decide (name = m)) as [<-|Hne]; [done|].
      rewrite dict_get_set_ne in Hm by done. by apply Hst.
Qed.

Lemma for_each_note_qname_Ok (l : list str)
    (st : list (str * str) * list (str * str)) :
  Forall closed_name l → ∃ st', for_each note_qname l st = Ok st'.
Proof.
  intros Hl. revert st. induction Hl as [|name l Hname Hl IH]; intros st;
    cbn [for_each]; [by eexists|].
  assert (∃ st0, note_qname name st = Ok st0) as [st0 ->].
  { unfold note_qname. destruct (dict_get st.1 name) as [q|]; [by eexists|].
    destruct st as [qnames namespaces].
    destruct (add_qname_Ok name qnames namespaces Hname) as (q & ns' & -> & _).
    by eexists. }
  cbn [mbind outcome_bind]. apply IH.
Qed.

Lemma for_each_note_qname_Raise (l : list str)
    (st : list (str * str) * list (str * str)) (e : exn) :
  for_each note_qname l st = Raise e → e = ValueError.
Proof.
  revert st. induction l as [|name l IH]; intros st; cbn [for_each]; [done|].
  destruct (note_qname name st) as [st1|e'] eqn:Hnote;
    cbn [mbind outcome_bind]; [apply IH|].
  intros [= <-]. unfold note_qname in Hnote.
  destruct (dict_get st.1 name); [done|].
  by apply add_qname_Raise in Hnote as [-> _].
Qed.

(** The tables of a tree: they are built exactly when every name of the
    tree can be written, the only exception is ValueError, and every name
    of the tree has an entry. *)
Lemma namespaces_of_Ok_iff (t : Element) :
  (∃ tables, namespaces_of t = Ok tables) ↔ closed_names t.
Proof.
  rewrite namespaces_of_names. unfold closed_names. split.
  - intros [st' Hst']. apply for_each_note_qname in Hst' as (_ & _ & _ & _ & Hcl).
    apply Hcl. by intros name [? ?].
  - apply for_each_note_qname_Ok.
Qed.

Lemma namespaces_of_Raise (t : Element) (e : exn) :
  namespaces_of t = Raise e → e = ValueError.
Proof. rewrite namespaces_of_names. apply for_each_note_qname_Raise. Qed.

Lemma namespaces_of_entries (t : Element) (qnames namespaces : list (str * str)) :
  namespaces_of t = Ok (qnames, namespaces) →
  (∀ name, name ∈ names t → is_Some (dict_get qnames name)) ∧
  plain_entries qnames ∧
  (plain_names t → namespaces = []).
Proof.
  rewrite namespaces_of_names. intros Hst.
  apply for_each_note_qname in Hst as (_ & Hin & Hplain & Hns & _).
  split; [done|]. split; [by apply Hplain|]. exact Hns.
Qed.

(** C3 (amended): [dumpString] serializes a tree whose elements are those of
    the tree it is given, one for one in document order, each with the tag
    and the attributes of the original, the attributes in strictly
    ascending order of the name under which the element holds them.  The
    serializer writes the attributes of an element in that order, right
    after the tag (and, in the root, the declarations), and writes a name
    that is not qualified as it is: the names written ascend wherever none
    is qualified.  Two well-formed trees that differ only in the insertion
    order of their attributes give the same string (or the same exception),
    with the copy or without it. *)
Theorem dumpString_attribute_order
    (obj1 obj2 : ref) (σ1 σ2 : store) (t1 t2 : Element) (noCopy : bool) :
  wf_Element t1 → same_but_attrib_order t1 t2 →
  σ1 !! obj1 = Some t1 → σ2 !! obj2 = Some t2 →
  Forall2 (λ el el', tag el' = tag el ∧ attrib el' ≡ₚ attrib el ∧
                     StronglySorted str_lt (attrib el').*1)
          (iter t1) (iter (canonical t1)) ∧
  (∀ qnames namespaces,
     namespaces_of (canonical t1) = Ok (qnames, namespaces) →
     Forall (λ el',
               (∀ declared s, serialize_xml qnames declared el' = Ok s →
                  ∃ xmlns rest,
                    s = py "<" ++ written_name qnames (tag el') ++ xmlns
                        ++ (attrib el' ≫= λ kv,
                              item_str (written_name qnames kv.1, kv.2))
                        ++ rest) ∧
               Forall (λ name, plain_name name →
                               written_name qnames name = name)
                      (attrib el').*1)
            (iter (canonical t1))) ∧
  ∃ xStr σ1' σ2',
    xStr = (s ← et_tostring (canonical t1); Ok (rstrip s)) ∧
    dumpString obj1 noCopy σ1 = Some (xStr, σ1') ∧
    dumpString obj2 noCopy σ2 = Some (xStr, σ2').
Proof.
  intros Hwf Hsame H1 H2.
  assert (canonical t1 = canonical t2) as Hcanon.
  { unfold canonical. rewrite !sort_attributes_indent.
    by rewrite (sort_attributes_same t1 t2). }
  split; [|split].
  { eapply Forall2_impl.
    - apply Forall2_and_r; [by apply canonical_same_content|].
      unfold canonical. rewrite sort_attributes_indent.
      by apply wf_Element_sort_attributes_indent.
    - by intros el el' [(? & ? & _) ?]. }
  { intros qnames namespaces Htables.
    apply namespaces_of_entries in Htables as (_ & Hentries & _).
    apply Forall_forall. intros el' _. split.
    - intros declared s Hs.
      apply serialize_xml_start_tag in Hs as (xmlns & rest & _ & ->).
      by eexists _, _.
    - apply Forall_forall. intros name _ Hplain. unfold written_name.
      destruct (dict_get qnames name) as [q|] eqn:Hq; [|done].
      by apply Hentries. }
  destruct noCopy.
  - eexists _, _, _. split; [done|].
    rewrite (dumpString_noCopy _ _ _ H1), (dumpString_noCopy _ _ _ H2).
    by rewrite Hcanon.
  - eexists _, _, _. split; [done|].
    rewrite (dumpString_copy _ _ _ H1), (dumpString_copy _ _ _ H2).
    by rewrite Hcanon.
Qed.

Lemma dumpString_attribute_order_witness :
  Forall2 (λ el el', tag el' = tag el ∧ attrib el' ≡ₚ attrib el ∧
                     StronglySorted str_lt (attrib el').*1)
          (iter attrs_ba) (iter (canonical attrs_ba)) ∧
  ∃ xStr σ1' σ2',
    xStr = (s ← et_tostring (canonical attrs_ba); Ok (rstrip s)) ∧
    dumpString 0%nat false {[ 0%nat := attrs_ba ]} = Some (xStr, σ1') ∧
    dumpString 0%nat false {[ 0%nat := attrs_ab ]} = Some (xStr, σ2').
Proof.
  destruct (dumpString_attribute_order 0%nat 0%nat
              {[ 0%nat := attrs_ba ]} {[ 0%nat := attrs_ab ]}
              attrs_ba attrs_ab false) as (Hnodes & _ & Hsame).
  - unfold wf_Element. apply (bool_decide_unpack _). by vm_compute.
  - apply same_mkElement; [apply Permutation_swap|constructor].
  - reflexivity.
  - reflexivity.
  - by split.
Defined.

(** C3, the claim as it is worded: [dumpString] sorts the attributes on the
    name under which the element holds them, and a qualified name is held
    as [{uri}local] and written [prefix:local].  The element
    [<a z="1" xml:lang="en" />] comes out with [z] before [xml:lang],
    though ['xml:lang' < 'z']: the names written do not ascend. *)
Lemma dumpString_attribute_order_counterexample :
  fst <$> dumpString 0%nat false {[ 0%nat := z_xml_lang ]}
  = Some (Ok (py "<a z=" ++ [34; 49; 34] ++ py " xml:lang=" ++ [34]
              ++ py "en" ++ [34] ++ py " />")) ∧
  (1 < length (attrib z_xml_lang))%nat ∧
  NoDup (attrib z_xml_lang).*1 ∧
  str_lt (py "xml:lang") (py "z").
Proof.
  split; [by vm_compute|]. split; [by vm_compute|]. split; [|by vm_compute].
  apply (bool_decide_unpack _). by vm_compute.
Qed.

Example dumpString_attrs_ba :
  fst <$> dumpString 0%nat false {[ 0%nat := attrs_ba ]}
  = Some (Ok (py "<note a=" ++ [34; 49; 34] ++ py " b=" ++ [34; 50; 34]
              ++ py " />")).
Proof. by vm_compute. Qed.

Lemma lstrip_spaces (s : str) :
  Forall (λ c, isspace c = true) s → lstrip s = [].
Proof. induction 1 as [|c s Hc Hs IH]; simpl; [done|]. by rewrite Hc. Qed.

Lemma blank_indent_string (d : nat) :
  blank (Some (10 :: str_repeat d (py "  "))) = true.
Proof.
  unfold blank, strip. rewrite lstrip_spaces; [done|].
  constructor; [done|]. unfold str_repeat.
  induction d as [|d IH]; simpl; [constructor|]. by repeat constructor.
Qed.

Lemma set_last_tail_snoc (i : str) (l : list Element) (e : Element) :
  set_last_tail i (l ++ [e]) = l ++ [set_tail (Some i) e].
Proof.
  induction l as [|e' l IH]; [done|]. simpl. rewrite IH.
  by destruct l.
Qed.

(** The tail an element had has no part in what [indent] makes of it,
    its own tail apart. *)
Lemma indent_set_tail (x y : option str) (c : Element) (level : nat) :
  set_tail y (indent (set_tail x c) level) = set_tail y (indent c level).
Proof.
  destruct c as [tg attrs tx tl cs]. unfold set_tail at 2. simpl tag.
  simpl attrib. simpl text. simpl children.
  destruct (decide (cs = [])) as [->|Hcs].
  - rewrite !indent_leaf.
    by destruct (negb (level =? 0)%nat && blank x),
                (negb (level =? 0)%nat && blank tl).
  - by rewrite !indent_node.
Qed.

Lemma indent_last_tails (t : Element) (level : nat) :
  Forall (λ n, ∀ c, last (children n) = Some c →
               ∃ d, tail c = Some (10 :: str_repeat d (py "  ")))
         (iter (indent t level)).
Proof.
  revert level. induction t as [tg attrs tx tl cs IH] using Element_ind'.
  intros level. destruct (decide (cs = [])) as [->|Hcs].
  - rewrite indent_leaf.
    destruct (negb (level =? 0)%nat && blank tl); by repeat constructor.
  - rewrite indent_node by done. cbn zeta. cbn [iter children]. constructor.
    + intros c Hc. cbn [children] in Hc.
      destruct (last_set_last_tail (10 :: str_repeat level (py "  "))
                  ((λ subElem, indent subElem (S level)) <$> cs))
        as (c' & _ & Hc'); [by destruct cs|].
      rewrite Hc' in Hc. injection Hc as <-. by exists level.
    + apply Forall_bind, Forall_set_last_tail.
      * intros x e He. unfold compose in *. rewrite iter_set_tail.
        destruct e. simpl in *.
        by apply Forall_cons in He as [??]; constructor.
      * apply Forall_fmap. rewrite Forall_forall in IH |- *.
        intros c Hc. simpl. by apply IH.
Qed.

(** C10: for an element with at least one child [indent] sets the tail of
    the last child to the indent string of the element, and a different
    tail on that child changes nothing in the result; a child that is not
    the last keeps a tail that has more than blanks.  Without the copy the
    tree [dumpString] leaves to the caller, which is the one it serializes,
    has only blank tails on last children. *)
Theorem indent_overwrites_last_tail (elem : Element) (level : nat) :
  children elem ≠ [] →
  let i := 10 :: str_repeat level (py "  ") in
  (∃ c, last (children (indent elem level)) = Some c ∧ tail c = Some i) ∧
  (∀ cs c x, children elem = cs ++ [c] →
     indent (set_children (cs ++ [set_tail x c]) elem) level
     = indent elem level) ∧
  (∀ k c, (S k < length (children elem))%nat →
     children elem !! k = Some c → blank (tail c) = false →
     tail <$> children (indent elem level) !! k = Some (tail c)) ∧
  (∀ obj σ, σ !! obj = Some elem →
     ∃ σ',
       dumpString obj true σ =
         Some (xStr ← et_tostring (canonical elem); Ok (rstrip xStr), σ') ∧
       σ' !! obj = Some (canonical elem) ∧
       Forall (λ n, ∀ c, last (children n) = Some c → blank (tail c) = true)
              (iter (canonical elem))).
Proof.
  destruct elem as [tg attrs tx tl cs]. cbn [children]. intros Hcs.
  repeat split.
  - rewrite indent_node by done. cbn zeta. cbn [children].
    destruct (last_set_last_tail (10 :: str_repeat level (py "  "))
                ((λ subElem, indent subElem (S level)) <$> cs))
      as (c' & _ & Hc'); [by destruct cs|].
    eexists. split; [exact Hc'|]. by destruct c'.
  - intros cs' c x ->. unfold set_children.
    cbn [tag attrib text tail children].
    rewrite !indent_node by (by destruct cs'). cbn zeta. f_equal.
    rewrite !fmap_app, !list_fmap_singleton, !set_last_tail_snoc.
    f_equal. f_equal. apply indent_set_tail.
  - intros k c Hk Hc Hblank. rewrite indent_node by done. cbn zeta.
    cbn [children].
    rewrite lookup_set_last_tail by (by rewrite length_fmap).
    rewrite list_lookup_fmap, Hc. simpl. f_equal.
    destruct c as [tg' attrs' tx' tl' cs']. simpl in Hblank.
    destruct (decide (cs' = [])) as [->|Hcs'].
    + rewrite indent_leaf, Hblank. by rewrite andb_false_r.
    + rewrite indent_node by done. cbn zeta. simpl. by rewrite !Hblank.
  - intros obj σ Hobj. eexists. split; [by apply dumpString_noCopy|].
    split; [by rewrite lookup_insert_eq|].
    unfold canonical. rewrite sort_attributes_indent.
    eapply Forall_impl; [apply indent_last_tails|].
    intros n Hn c Hc. destruct (Hn c Hc) as [d ->].
    apply blank_indent_string.
Qed.

Lemma indent_overwrites_last_tail_witness :
  ∃ c, last (children (indent hello_world 0)) = Some c ∧ tail c = Some [10].
Proof.
  destruct (indent_overwrites_last_tail hello_world 0) as [Hlast _];
    [discriminate|exact Hlast].
Defined.

Example dumpString_hello_world :
  dumpString 0%nat true {[ 0%nat := hello_world ]}
  = Some (Ok (py "<p>Hello <b>world</b>" ++ [10] ++ py "</p>"),
          {[ 0%nat :=
               mkElement (py "p") [] (Some (py "Hello ")) (Some [10])
                 [mkElement (py "b") [] (Some (py "world")) (Some [10]) []] ]}).
Proof. by vm_compute. Qed.

(** ** insertBeforeElements *)

Lemma insertIndices_spec (tagList : list str) (cs : list Element)
    (g : nat → nat) (s : gset nat) (j : nat) :
  j ∈ foldl (λ (s : gset nat) (ic : nat * Element),
               if bool_decide (tag ic.2 ∈ tagList) then s ∪ {[ ic.1 ]} else s)
            s (imap (λ i child, (g i, child)) cs)
  ↔ j ∈ s ∨ ∃ i child, cs !! i = Some child ∧ g i = j ∧ tag child ∈ tagList.
Proof.
  revert g s. induction cs as [|c cs IH]; intros g s.
  { simpl. split; [by left|]. intros [?|(i & child & ? & _)]; done. }
  rewrite imap_cons. cbn [foldl]. unfold compose.
  rewrite (IH (λ i, g (S i))). cbn [fst snd]. split.
  - intros [Hj|(i & child & Hi & Hg & Ht)].
    + case_bool_decide as Hc; [|by left].
      apply elem_of_union in Hj as [Hj|Hj]; [by left|].
      apply elem_of_singleton in Hj. right. by exists 0%nat, c.
    + right. by exists (S i), child.
  - intros [Hj|(i & child & Hi & Hg & Ht)].
    + left. case_bool_decide; [|done]. apply elem_of_union. by left.
    + destruct i as [|i].
      * simpl in Hi. injection Hi as ->. left.
        rewrite bool_decide_true by done. apply elem_of_union. right.
        by apply elem_of_singleton.
      * right. by exists i, child.
Qed.

Lemma foldr_min_least (i : nat) (l : list nat) :
  foldr Nat.min i l ∈ i :: l ∧ ∀ j, j ∈ i :: l → (foldr Nat.min i l ≤ j)%nat.
Proof.
  induction l as [|x l [IHin IHle]]; simpl.
  { split; [left|]. by intros j ->%list_elem_of_singleton. }
  split.
  - destruct (Nat.min_spec x (foldr Nat.min i l)) as [[_ ->]|[_ ->]].
    + right. left.
    + apply elem_of_cons in IHin as [->|?]; [left|by do 2 right].
  - intros j [->|[->|Hj]%elem_of_cons]%elem_of_cons.
    + etrans; [apply Nat.le_min_r|]. apply IHle. left.
    + apply Nat.le_min_l.
    + etrans; [apply Nat.le_min_r|]. apply IHle. by right.
Qed.

Lemma set_min_least (s : gset nat) (i : nat) :
  i ∈ s → ∃ k, set_min s = Ok k ∧ k ∈ s ∧ ∀ j, j ∈ s → (k ≤ j)%nat.
Proof.
  intros Hi. unfold set_min.
  destruct (elements s) as [|x l] eqn:Hs.
  { apply elem_of_elements in Hi. rewrite Hs in Hi. by apply elem_of_nil in Hi. }
  destruct (foldr_min_least x l) as [Hin Hle]. eexists. split; [done|].
  rewrite <-Hs in Hin, Hle. split; [by apply elem_of_elements|].
  intros j Hj. by apply Hle, elem_of_elements.
Qed.



(** A grandchild with a tag of the list does not count. *)
Example insertBeforeElements_grandchild (foo : Element) :
  insertBeforeElements
    (mkElement (py "attributes") [] None None [clef_sign_line]) foo
    (Some [py "line"])
  = Ok (mkElement (py "attributes") [] None None [clef_sign_line; foo]).
Proof. by vm_compute. Qed.

(** The example of the docstring: [foo] before [line], then [bar] at the
    end, and the tree as [dump] prints it. *)
Example insertBeforeElements_docstring :
  ∃ root1 root2,
    insertBeforeElements clef_sign_line (leaf (py "foo") None)
      (Some [py "line"]) = Ok root1 ∧
    insertBeforeElements root1 (leaf (py "bar") None) None = Ok root2 ∧
    fst <$> dumpString 0%nat false {[ 0%nat := root2 ]}
    = Some (Ok (py "<clef>" ++ [10] ++ py "  <sign>G</sign>" ++ [10] ++
                py "  <foo />" ++ [10] ++ py "  <line>4</line>" ++ [10] ++
                py "  <bar />" ++ [10] ++ py "</clef>")).
Proof. eexists _, _. repeat split; by vm_compute. Qed.

(** ** The synchronizers *)

(** *** Reading and writing attributes *)

(** C5 (amended): the element is unchanged when there is no object or the
    object is no instance of [ProtoM21Object], when it has no [id], when
    its [id] is None and when the [id] is not valid (['123456'] is not);
    for an instance of [ProtoM21Object] with a valid [id] (['validName1']
    is one) the attribute [id] of the element is set to it, over the value
    it had, and no other attribute changes. *)
Theorem synchronizeIdsToXML_identifier :
  (∀ isValidXSDID element o,
     isProtoM21Object o = false ∨
     fields o !! py "id" = None ∨ fields o !! py "id" = Some PyNone ∨
     (∃ m21Id, fields o !! py "id" = Some m21Id ∧ isValidXSDID m21Id = false) →
     synchronizeIdsToXML isValidXSDID element None = element ∧
     synchronizeIdsToXML isValidXSDID element (Some o) = element) ∧
  (∀ isValidXSDID element o m21Id,
     isProtoM21Object o = true → fields o !! py "id" = Some m21Id →
     m21Id ≠ PyNone → isValidXSDID m21Id = true →
     synchronizeIdsToXML isValidXSDID element (Some o)
       = Element_set element (py "id") m21Id ∧
     Element_get (synchronizeIdsToXML isValidXSDID element (Some o)) (py "id")
       = Some m21Id ∧
     ∀ k, k ≠ py "id" →
       Element_get (synchronizeIdsToXML isValidXSDID element (Some o)) k
       = Element_get element k) ∧
  spec_isValidXSDID (PyStr (py "123456")) = false ∧
  spec_isValidXSDID (PyStr (py "validName1")) = true ∧
  (∀ element,
     synchronizeIdsToXML spec_isValidXSDID element
       (Some (m21 [(py "id", PyStr (py "123456"))])) = element ∧
     Element_get
       (synchronizeIdsToXML spec_isValidXSDID element
          (Some (m21 [(py "id", PyStr (py "validName1"))]))) (py "id")
     = Some (PyStr (py "validName1"))).
Proof.
  split; [|split; [|split; [|split]]].
  - intros valid element o Hid. split; [done|].
    unfold synchronizeIdsToXML.
    destruct Hid as [->|Hid]; [done|].
    destruct (negb (isProtoM21Object o)); [done|].
    destruct Hid as [->|[->|(m21Id & -> & Hvalid)]]; [done|done|].
    destruct (decide (m21Id = PyNone)); [done|]. by rewrite Hvalid.
  - intros valid element o m21Id Hproto Hid Hnone Hvalid.
    assert (synchronizeIdsToXML valid element (Some o)
            = Element_set element (py "id") m21Id) as ->.
    { unfold synchronizeIdsToXML. rewrite Hproto, Hid. simpl.
      rewrite decide_False by done. by rewrite Hvalid. }
    split; [done|]. split; [apply dict_get_set|].
    intros k Hk. by apply dict_get_set_ne.
  - by vm_compute.
  - by vm_compute.
  - intros element. split; [by vm_compute|].
    assert (synchronizeIdsToXML spec_isValidXSDID element
              (Some (m21 [(py "id", PyStr (py "validName1"))]))
            = Element_set element (py "id") (PyStr (py "validName1"))) as ->
      by (by vm_compute).
    apply dict_get_set.
Qed.

Lemma synchronizeIdsToXML_identifier_witness :
  synchronizeIdsToXML spec_isValidXSDID fermata (Some (m21 [])) = fermata ∧
  synchronizeIdsToXML spec_isValidXSDID
    (Element_set fermata (py "id") (PyStr (py "old")))
    (Some (m21 [(py "id", PyStr (py "fermata1"))]))
  = Element_set fermata (py "id") (PyStr (py "fermata1")).
Proof.
  destruct synchronizeIdsToXML_identifier as (Hskip & Hset & _). split.
  - apply (Hskip spec_isValidXSDID fermata (m21 [])). right. by left.
  - destruct (Hset spec_isValidXSDID
                (Element_set fermata (py "id") (PyStr (py "old")))
                (m21 [(py "id", PyStr (py "fermata1"))])
                (PyStr (py "fermata1"))) as [Heq _];
      [reflexivity|by vm_compute|discriminate|by vm_compute|].
    rewrite Heq. by vm_compute.
Defined.

Lemma py_str_only_ValueError (value : PyValue) (e : exn) :
  py_str value = Raise e → e = ValueError.
Proof.
  destruct value as [|[|]|z|s]; cbn [py_str]; try discriminate.
  destruct (max_str_digits <? _); congruence.
Qed.

(** C5, the claim as it is worded: an object that is no instance of
    [ProtoM21Object] has the identifier ['validName1'], which passes the
    check (and any check that passes everything), and the element is left
    as it was, without an [id]. *)
Lemma synchronizeIdsToXML_identifier_counterexample :
  fields (not_m21 [(py "id", PyStr (py "validName1"))]) !! py "id"
    = Some (PyStr (py "validName1")) ∧
  spec_isValidXSDID (PyStr (py "validName1")) = true ∧
  synchronizeIdsToXML spec_isValidXSDID fermata
    (Some (not_m21 [(py "id", PyStr (py "validName1"))])) = fermata ∧
  synchronizeIdsToXML (λ _, true) fermata
    (Some (not_m21 [(py "id", PyStr (py "validName1"))])) = fermata ∧
  Element_get fermata (py "id") = None.
Proof. repeat split; by vm_compute. Qed.

(** C6: the call is skipped only when the object has no such field or the
    field holds None.  Any other value, zero and the empty string among
    them, goes through the transform when there is one, then through [str],
    and is written as the attribute of the element, over the value it
    had; an exception of the transform or of [str] is the one of the
    call. *)
Theorem setXMLAttributeFromAttribute_skips_only_None
    (hyphenToCamelCase : str → str) (m21El : PyObject) (xmlEl : Element)
    (xmlAttributeName : str) (attributeName : option str) :
  let field := default (hyphenToCamelCase xmlAttributeName) attributeName in
  let call := setXMLAttributeFromAttribute hyphenToCamelCase m21El xmlEl
                xmlAttributeName attributeName in
  (∀ transform,
     fields m21El !! field = None ∨ fields m21El !! field = Some PyNone →
     call transform = Ok xmlEl) ∧
  (∀ value s, fields m21El !! field = Some value → value ≠ PyNone →
     py_str value = Ok s →
     call None = Ok (Element_set xmlEl xmlAttributeName (PyStr s))) ∧
  (∀ value f value' s, fields m21El !! field = Some value → value ≠ PyNone →
     f value = Ok value' → py_str value' = Ok s →
     call (Some f) = Ok (Element_set xmlEl xmlAttributeName (PyStr s))) ∧
  (∀ value f e, fields m21El !! field = Some value → value ≠ PyNone →
     f value = Raise e → call (Some f) = Raise e) ∧
  (∀ value e, fields m21El !! field = Some value → value ≠ PyNone →
     call None = Raise e → e = ValueError ∧ py_str value = Raise ValueError) ∧
  (∀ value f value' e, fields m21El !! field = Some value → value ≠ PyNone →
     f value = Ok value' → call (Some f) = Raise e →
     e = ValueError ∧ py_str value' = Raise ValueError) ∧
  (fields m21El !! field = Some (PyInt 0) →
     call None = Ok (Element_set xmlEl xmlAttributeName (PyStr (py "0"))) ∧
     call (Some to_yes_no)
       = Ok (Element_set xmlEl xmlAttributeName (PyStr (py "no")))) ∧
  (fields m21El !! field = Some (PyStr []) →
     call None = Ok (Element_set xmlEl xmlAttributeName (PyStr [])) ∧
     call (Some to_yes_no)
       = Ok (Element_set xmlEl xmlAttributeName (PyStr (py "no")))) ∧
  (∀ value, Element_get (Element_set xmlEl xmlAttributeName value)
              xmlAttributeName = Some value ∧
            (is_Some (Element_get xmlEl xmlAttributeName) →
             length (attrib (Element_set xmlEl xmlAttributeName value))
             = length (attrib xmlEl))).
Proof.
  cbv zeta. unfold setXMLAttributeFromAttribute.
  set (field := default (hyphenToCamelCase xmlAttributeName) attributeName).
  assert (∀ transform value, fields m21El !! field = Some value →
          value ≠ PyNone →
          (if decide (default PyNone (fields m21El !! field) = PyNone)
           then Ok xmlEl
           else value' ← apply_transform transform
                  (default PyNone (fields m21El !! field));
                s ← py_str value';
                Ok (Element_set xmlEl xmlAttributeName (PyStr s)))
          = (value' ← apply_transform transform value;
             s ← py_str value';
             Ok (Element_set xmlEl xmlAttributeName (PyStr s))))
    as Hpresent.
  { intros transform value -> Hne. simpl. by rewrite decide_False. }
  repeat apply conj.
  - by intros transform [-> | ->].
  - intros value s Hv Hne Hs. rewrite (Hpresent _ _ Hv Hne).
    cbn [apply_transform mbind outcome_bind]. by rewrite Hs.
  - intros value f value' s Hv Hne Hf Hs. rewrite (Hpresent _ _ Hv Hne).
    cbn [apply_transform mbind outcome_bind]. rewrite Hf.
    cbn [mbind outcome_bind]. by rewrite Hs.
  - intros value f e Hv Hne Hf. rewrite (Hpresent _ _ Hv Hne).
    cbn [apply_transform mbind outcome_bind]. by rewrite Hf.
  - intros value e Hv Hne. rewrite (Hpresent _ _ Hv Hne).
    cbn [apply_transform mbind outcome_bind].
    destruct (py_str value) as [s|e'] eqn:Hs; cbn [mbind outcome_bind];
      [done|].
    intros [= <-]. by rewrite (py_str_only_ValueError _ _ Hs).
  - intros value f value' e Hv Hne Hf. rewrite (Hpresent _ _ Hv Hne).
    cbn [apply_transform mbind outcome_bind]. rewrite Hf.
    cbn [mbind outcome_bind].
    destruct (py_str value') as [s|e'] eqn:Hs; cbn [mbind outcome_bind];
      [done|].
    intros [= <-]. by rewrite (py_str_only_ValueError _ _ Hs).
  - intros Hv. by rewrite !(Hpresent _ _ Hv).
  - intros Hv. by rewrite !(Hpresent _ _ Hv).
  - intros value. split; [apply dict_get_set|apply dict_set_length].
Qed.

Lemma setXMLAttributeFromAttribute_skips_only_None_witness :
  setXMLAttributeFromAttribute id (m21 [(py "isNew", PyBool true)])
    (Element_set (leaf (py "page-layout") None) (py "new-page")
       (PyStr (py "no")))
    (py "new-page") (Some (py "isNew")) (Some to_yes_no)
  = Ok (Element_set (leaf (py "page-layout") None) (py "new-page")
          (PyStr (py "yes"))).
Proof.
  destruct (setXMLAttributeFromAttribute_skips_only_None id
              (m21 [(py "isNew", PyBool true)])
              (Element_set (leaf (py "page-layout") None) (py "new-page")
                 (PyStr (py "no")))
              (py "new-page") (Some (py "isNew")))
    as (_ & _ & Hf & _).
  rewrite (Hf (PyBool true) to_yes_no (PyStr (py "yes")) (py "yes"));
    [reflexivity|reflexivity|discriminate|reflexivity|reflexivity].
Defined.

(** C7: when the element has no attribute of the name the object is left
    as it is, the target field with the value it had or without one.  An
    attribute that is there with the empty string as value is read: the
    field is set to it, or to its transform. *)
Theorem setM21AttributeFromAttribute_absent
    (hyphenToCamelCase : str → str) (m21El : PyObject) (xmlEl : Element)
    (xmlAttributeName : str) (attributeName : option str)
    (transform : option (PyValue → outcome PyValue)) :
  let field := default (hyphenToCamelCase xmlAttributeName) attributeName in
  let call := setM21AttributeFromAttribute hyphenToCamelCase m21El xmlEl
                xmlAttributeName attributeName transform in
  (Element_get xmlEl xmlAttributeName = None → call = Ok m21El) ∧
  (Element_get xmlEl xmlAttributeName = Some (PyStr []) →
     call = (value ← apply_transform transform (PyStr []);
             Ok (setattr m21El field value)) ∧
     (transform = None →
      ∃ m21El', call = Ok m21El' ∧ fields m21El' !! field = Some (PyStr []))).
Proof.
  cbv zeta. unfold setM21AttributeFromAttribute. split.
  - by intros ->.
  - intros ->. simpl. split; [done|]. intros ->. simpl.
    eexists. split; [done|]. simpl. apply lookup_insert_eq.
Qed.

Lemma setM21AttributeFromAttribute_absent_witness :
  setM21AttributeFromAttribute id (m21 [(py "pageNumber", PyInt 4)])
    (leaf (py "page-layout") None) (py "page-number") (Some (py "pageNumber"))
    None
  = Ok (m21 [(py "pageNumber", PyInt 4)]).
Proof.
  destruct (setM21AttributeFromAttribute_absent id
              (m21 [(py "pageNumber", PyInt 4)])
              (leaf (py "page-layout") None) (py "page-number")
              (Some (py "pageNumber")) None) as [Habsent _].
  apply Habsent. reflexivity.
Defined.

(** The examples of the docstrings, with the name of the field given. *)
Example setXMLAttributeFromAttribute_docstring :
  let pl := m21 [(py "pageNumber", PyInt 4); (py "isNew", PyBool true)] in
  let e := leaf (py "page-layout") None in
  setXMLAttributeFromAttribute id pl e (py "page-number")
    (Some (py "pageNumber")) None
  = Ok (Element_set e (py "page-number") (PyStr (py "4"))) ∧
  setXMLAttributeFromAttribute id pl e (py "new-page") (Some (py "isNew")) None
  = Ok (Element_set e (py "new-page") (PyStr (py "True"))).
Proof. split; by vm_compute. Qed.

Example setM21AttributeFromAttribute_docstring :
  let e := mkElement (py "page-layout")
             [(py "new-page", PyStr (py "yes"));
              (py "page-number", PyStr (py "4"))] None None [] in
  setM21AttributeFromAttribute id (m21 []) e (py "new-page")
    (Some (py "isNew")) None
  = Ok (m21 [(py "isNew", PyStr (py "yes"))]).
Proof. by vm_compute. Qed.

Example synchronizeIdsToXML_docstring :
  Element_get
    (synchronizeIdsToXML spec_isValidXSDID fermata
       (Some (m21 [(py "id", PyStr (py "fermata1"))]))) (py "id")
  = Some (PyStr (py "fermata1")) ∧
  synchronizeIdsToXML spec_isValidXSDID fermata
    (Some (m21 [(py "id", PyInt 140234)])) = fermata ∧
  synchronizeIdsToXML spec_isValidXSDID fermata None = fermata.
Proof. repeat split; by vm_compute. Qed.

(** * Further properties *)

(** ** measureNumberComesBefore and splitSuffix *)

Lemma decimal_value_Some (c : char) :
  isdecimal c = true → is_Some (decimal_value c).
Proof.
  unfold isdecimal, in_ranges, decimal_value.
  induction decimal_table as [|r t IH]; simpl; [done|].
  destruct ((r.1 <=? c) && (c <=? r.2)); [by eexists|]. exact IH.
Qed.

Lemma int_digits_Some (s : str) (acc : N) :
  is_Some (foldl (λ acc c, n ← acc; d ← decimal_value c; Some (10 * n + d))
                 (Some acc) s)
  ↔ Forall (λ c, isdecimal c = true) s.
Proof.
  revert acc. induction s as [|c s IH]; intros acc; cbn [foldl].
  { split; [constructor|by eexists]. }
  cbn [mbind option_bind]. destruct (isdecimal c) eqn:Hc.
  - destruct (decimal_value_Some c Hc) as [d ->]. cbn [mbind option_bind].
    rewrite IH. split; [by constructor|by intros [_ ?]%Forall_cons].
  - rewrite (decimal_value_None c Hc). cbn [mbind option_bind].
    rewrite int_digits_None. split; [by intros [? ?]|].
    intros [Hc' _]%Forall_cons. congruence.
Qed.

Lemma int_Ok_iff (s : str) :
  (∃ n, int s = Ok n)
  ↔ s ≠ [] ∧ N.of_nat (length s) ≤ max_str_digits
    ∧ Forall (λ c, isdecimal c = true) s.
Proof.
  unfold int, int_digits. destruct s as [|c s].
  { split; [by intros [? ?]|by intros [? _]]. }
  rewrite <-(int_digits_Some (c :: s) 0).
  destruct (N.ltb_spec max_str_digits (N.of_nat (length (c :: s)))) as [Hl|Hl].
  { split; [by intros [? ?]|intros (_ & ? & _); lia]. }
  destruct (foldl _ _ _) as [n|]; simpl.
  - split; [by split; [|split; [|eexists]]|by eexists].
  - split; [by intros [? ?]|by intros (_ & _ & [? ?])].
Qed.

Lemma leading_numeric_app (d s : str) :
  Forall (λ c, isnumeric c = true) d →
  (∀ c rest, s = c :: rest → isnumeric c = false) →
  leading_numeric (d ++ s) = d.
Proof.
  intros Hd Hs. induction Hd as [|c d Hc Hd IH]; simpl.
  - destruct s as [|c rest]; [done|]. simpl. by rewrite (Hs c rest).
  - by rewrite Hc, IH.
Qed.

(** X1: on two different identifiers the function returns a boolean
    exactly when the numeric part of each is a non-empty run of decimal
    digits, and no longer than the 4300 characters [int] reads; in every
    other case it raises, and the exception is ValueError. *)
Theorem measureNumberComesBefore_returns (a b : str) :
  a ≠ b →
  ((∃ r, measureNumberComesBefore a b = Ok r)
   ↔ readable_number a ∧ readable_number b) ∧
  (∀ e, measureNumberComesBefore a b = Raise e → e = ValueError).
Proof.
  intros Hne. unfold readable_number.
  rewrite <-!int_Ok_iff. unfold measureNumberComesBefore.
  rewrite decide_False by done. unfold splitSuffix.
  destruct (int (leading_numeric a)) as [n1|e1] eqn:H1; simpl.
  - destruct (int (leading_numeric b)) as [n2|e2] eqn:H2; simpl.
    + split; [|by destruct (negb (n1 =? n2)%Z)].
      split; [eauto|]. intros _. destruct (negb (n1 =? n2)%Z); eauto.
    + split; [split; [by intros [? ?]|by intros [_ [? ?]]]|].
      intros e [= <-]. by eapply int_only_ValueError.
  - split; [split; [by intros [? ?]|by intros [[? ?] _]]|].
    intros e [= <-]. by eapply int_only_ValueError.
Qed.

Lemma measureNumberComesBefore_returns_witness :
  (∃ r, measureNumberComesBefore (py "7") (py "7bis") = Ok r)
  ↔ readable_number (py "7") ∧ readable_number (py "7bis").
Proof.
  apply (measureNumberComesBefore_returns (py "7") (py "7bis")).
  by vm_compute.
Defined.

(** X2: the numbers decide first.  When the number read from [a] is less
    than the one read from [b], [a] comes before [b] and [b] does not come
    before [a], whatever the suffixes are. *)
Theorem measureNumberComesBefore_number_first (a b : str) (n1 n2 : Z) :
  int (splitSuffix a).1 = Ok n1 → int (splitSuffix b).1 = Ok n2 →
  (n1 < n2)%Z →
  measureNumberComesBefore a b = Ok true ∧
  measureNumberComesBefore b a = Ok false.
Proof.
  intros H1 H2 Hlt.
  assert (a ≠ b) as Hne by (intros ->; rewrite H1 in H2; injection H2; lia).
  rewrite (measureNumberComesBefore_read a b n1 n2) by done.
  rewrite (measureNumberComesBefore_read b a n2 n1) by done.
  destruct (Z.eqb_spec n1 n2), (Z.eqb_spec n2 n1); try lia. cbn [negb].
  split; f_equal; [by apply Z.ltb_lt|apply Z.ltb_ge; lia].
Qed.

Lemma measureNumberComesBefore_number_first_witness :
  measureNumberComesBefore (py "9z") (py "10a") = Ok true ∧
  measureNumberComesBefore (py "10a") (py "9z") = Ok false.
Proof.
  apply (measureNumberComesBefore_number_first (py "9z") (py "10a") 9 10);
    [by vm_compute|by vm_compute|lia].
Defined.

(** X3: with the same number the suffixes decide, by code point order.
    When the suffixes differ, [a] comes before [b] exactly when the suffix
    of [a] is less than the suffix of [b], and the other direction is the
    opposite. *)
Theorem measureNumberComesBefore_suffix_order (a b : str) (n : Z) :
  int (splitSuffix a).1 = Ok n → int (splitSuffix b).1 = Ok n →
  (splitSuffix a).2 ≠ (splitSuffix b).2 →
  measureNumberComesBefore a b
    = Ok (str_ltb (splitSuffix a).2 (splitSuffix b).2) ∧
  measureNumberComesBefore b a
    = Ok (negb (str_ltb (splitSuffix a).2 (splitSuffix b).2)).
Proof.
  intros H1 H2 Hs.
  assert (a ≠ b) as Hne by (by intros ->).
  rewrite (measureNumberComesBefore_read a b n n) by done.
  rewrite (measureNumberComesBefore_read b a n n) by done.
  rewrite Z.eqb_refl. cbn [negb].
  set (sa := (splitSuffix a).2) in *. set (sb := (splitSuffix b).2) in *.
  clearbody sa sb. split; [|done]. f_equal.
  destruct (str_ltb sa sb) eqn:Hab.
  - by rewrite (str_ltb_asym _ _ Hab).
  - destruct (str_ltb sb sa) eqn:Hba; [done|].
    destruct Hs. by apply str_ltb_total.
Qed.

Lemma measureNumberComesBefore_suffix_order_witness :
  measureNumberComesBefore (py "23a") (py "23b")
    = Ok (str_ltb (py "a") (py "b")) ∧
  measureNumberComesBefore (py "23b") (py "23a")
    = Ok (negb (str_ltb (py "a") (py "b"))).
Proof.
  apply (measureNumberComesBefore_suffix_order (py "23a") (py "23b") 23);
    by vm_compute.
Defined.

(** X5: an identifier that is a number only comes before the same number
    with a suffix: for a non-empty run [d] of decimal digits, no longer
    than the 4300 characters [int] reads, and a suffix that does not start
    with a numeric character, [d] comes before [d ++ suffix] and not the
    other way round. *)
Theorem measureNumberComesBefore_bare_number_first (d suffix : str) :
  d ≠ [] → N.of_nat (length d) ≤ max_str_digits →
  Forall (λ c, isdecimal c = true) d →
  suffix ≠ [] → (∀ c rest, suffix = c :: rest → isnumeric c = false) →
  measureNumberComesBefore d (d ++ suffix) = Ok true ∧
  measureNumberComesBefore (d ++ suffix) d = Ok false.
Proof.
  intros Hd Hlen Hdec Hsuffix Hhead.
  assert (Forall (λ c, isnumeric c = true) d) as Hnum.
  { eapply Forall_impl; [exact Hdec|]. intros c Hc. unfold isnumeric.
    by rewrite Hc. }
  assert (splitSuffix d = (d, [])) as Hsplit1.
  { assert (leading_numeric d = d) as Hl.
    { rewrite <-(app_nil_r d) at 1. by apply leading_numeric_app. }
    unfold splitSuffix. by rewrite Hl, drop_all. }
  assert (splitSuffix (d ++ suffix) = (d, suffix)) as Hsplit2.
  { unfold splitSuffix. rewrite (leading_numeric_app d suffix) by done.
    by rewrite drop_app_length. }
  destruct (proj2 (int_Ok_iff d)) as [n Hn]; [done|].
  assert (d ≠ d ++ suffix) as Hne.
  { intros Heq. apply (f_equal length) in Heq. rewrite length_app in Heq.
    destruct suffix; [done|]. simpl in Heq. lia. }
  rewrite (measureNumberComesBefore_read d (d ++ suffix) n n);
    [|done|by rewrite Hsplit1|by rewrite Hsplit2].
  rewrite (measureNumberComesBefore_read (d ++ suffix) d n n);
    [|done|by rewrite Hsplit2|by rewrite Hsplit1].
  rewrite Z.eqb_refl, Hsplit1, Hsplit2. cbn [negb fst snd].
  by destruct suffix.
Qed.

Lemma measureNumberComesBefore_bare_number_first_witness :
  measureNumberComesBefore (py "23") (py "23" ++ py "a") = Ok true ∧
  measureNumberComesBefore (py "23" ++ py "a") (py "23") = Ok false.
Proof.
  apply (measureNumberComesBefore_bare_number_first (py "23") (py "a")).
  - discriminate.
  - by vm_compute.
  - by repeat constructor.
  - discriminate.
  - intros c rest [= <- <-]. by vm_compute.
Defined.

(** X6: [splitSuffix] loses nothing and splits at the first character that
    is not numeric: number and suffix put together are the identifier, the
    number has numeric characters only and the suffix does not start with
    one. *)
Theorem splitSuffix_split (measureNumber : str) :
  (splitSuffix measureNumber).1 ++ (splitSuffix measureNumber).2
    = measureNumber ∧
  Forall (λ c, isnumeric c = true) (splitSuffix measureNumber).1 ∧
  (∀ c rest, (splitSuffix measureNumber).2 = c :: rest → isnumeric c = false).
Proof.
  unfold splitSuffix. cbn [fst snd].
  split; [|split; [apply leading_numeric_isnumeric|]].
  - induction measureNumber as [|c s IH]; [done|]. simpl.
    destruct (isnumeric c); [|done]. simpl. by rewrite IH.
  - induction measureNumber as [|c s IH]; [done|]. simpl.
    destruct (isnumeric c) eqn:Hc; [exact IH|].
    simpl. by intros c' rest [= <- _].
Qed.

Lemma splitSuffix_split_witness : isnumeric 97 = false.
Proof.
  destruct (splitSuffix_split (py "23a")) as (_ & _ & Hhead).
  apply (Hhead 97 []). by vm_compute.
Defined.

Lemma measureNumberComesBefore_trans_distinct_witness :
  measureNumberComesBefore (py "9") (py "10a") = Ok true.
Proof.
  apply (measureNumberComesBefore_trans_distinct (py "9") (py "10") (py "10a"));
    by vm_compute.
Defined.

(** ** dumpString, indent and dump *)

Lemma spaces_newline_indent (level : nat) :
  Forall (λ c, isspace c = true) (10 :: str_repeat level (py "  ")).
Proof.
  constructor; [done|]. unfold str_repeat.
  induction level as [|level IH]; simpl; [constructor|]. by repeat constructor.
Qed.

Lemma blank_spaces (s : str) :
  Forall (λ c, isspace c = true) s → blank (Some s) = true.
Proof.
  intros Hs. unfold blank, strip. rewrite lstrip_spaces by done.
  by rewrite orb_true_r.
Qed.

Lemma indent_idempotent (t : Element) (level : nat) :
  indent (indent t level) level = indent t level.
Proof.
  revert level. induction t as [tg attrs tx tl cs IH] using Element_ind'.
  intros level. destruct (decide (cs = [])) as [->|Hcs].
  - rewrite indent_leaf.
    destruct (negb (level =? 0)%nat && blank tl) eqn:Hc; rewrite indent_leaf.
    + apply andb_true_iff in Hc as [-> _]. cbn [andb].
      by rewrite blank_spaces by apply spaces_newline_indent.
    + by rewrite Hc.
  - rewrite indent_node by done. cbn zeta.
    rewrite indent_node
      by (intros Hnil; apply (f_equal length) in Hnil;
          rewrite length_set_last_tail, length_fmap in Hnil; by destruct cs).
    cbn zeta. f_equal.
    + destruct (blank tx) eqn:Htx; [|by rewrite Htx].
      rewrite blank_spaces; [done|].
      apply Forall_app. split; [apply spaces_newline_indent|by repeat constructor].
    + destruct (blank tl) eqn:Htl.
      * by rewrite !blank_spaces by apply spaces_newline_indent.
      * by rewrite !Htl.
    + destruct (exists_last Hcs) as (cs0 & c & ->).
      apply Forall_app in IH as [IH0 [IHc _]%Forall_cons].
      rewrite !fmap_app, !list_fmap_singleton, !set_last_tail_snoc.
      rewrite !fmap_app, !list_fmap_singleton, !set_last_tail_snoc.
      f_equal.
      * rewrite <-list_fmap_compose. apply Forall_fmap_ext.
        eapply Forall_impl; [exact IH0|]. intros c' Hc'. apply Hc'.
      * f_equal. by rewrite indent_set_tail, IHc.
Qed.

Lemma sort_attributes_idempotent (t : Element) :
  wf_Element t → sort_attributes (sort_attributes t) = sort_attributes t.
Proof.
  induction t as [tg attrs tx tl cs IH] using Element_ind'.
  intros [Hnd Hcs]%wf_Element_inv. simpl. f_equal.
  - apply sort_attrib_Permutation; [|by apply sort_attrib_Permutation_self].
    by rewrite sort_attrib_Permutation_self.
  - rewrite <-list_fmap_compose. apply Forall_fmap_ext.
    rewrite Forall_forall in IH, Hcs |- *. intros c Hc. simpl.
    by apply IH, Hcs.
Qed.

Lemma canonical_idempotent (t : Element) :
  wf_Element t → canonical (canonical t) = canonical t.
Proof.
  intros Hwf. unfold canonical.
  rewrite (sort_attributes_indent t), indent_idempotent.
  by rewrite sort_attributes_indent, sort_attributes_idempotent.
Qed.

(** X7: [dumpString] is idempotent on a well-formed tree.  After a call
    without the copy, a second call, with the copy or without it, returns
    the same string and finds nothing to change in the tree. *)
Theorem dumpString_idempotent
    (obj : ref) (σ : store) (t : Element) (noCopy : bool) :
  wf_Element t → σ !! obj = Some t →
  ∃ xStr σ1 σ2,
    dumpString obj true σ = Some (xStr, σ1) ∧
    dumpString obj noCopy σ1 = Some (xStr, σ2) ∧
    σ2 !! obj = σ1 !! obj.
Proof.
  intros Hwf Hobj.
  assert ((<[obj := canonical t]> σ) !! obj = Some (canonical t)) as Hobj1
    by apply lookup_insert_eq.
  destruct noCopy; eexists _, _, _; (split; [by apply dumpString_noCopy|]).
  - rewrite (dumpString_noCopy _ _ _ Hobj1), canonical_idempotent by done.
    split; [done|]. by rewrite insert_insert_eq.
  - rewrite (dumpString_copy _ _ _ Hobj1), canonical_idempotent by done.
    split; [done|]. rewrite lookup_insert_ne; [done|].
    intros Heq. apply (is_fresh (dom (<[obj := canonical t]> σ))).
    rewrite Heq. apply elem_of_dom. by eexists.
Qed.

Lemma dumpString_idempotent_witness :
  ∃ xStr σ1 σ2,
    dumpString 0%nat true {[ 0%nat := attrs_ba ]} = Some (xStr, σ1) ∧
    dumpString 0%nat false σ1 = Some (xStr, σ2) ∧
    σ2 !! 0%nat = σ1 !! 0%nat.
Proof.
  apply (dumpString_idempotent 0%nat {[ 0%nat := attrs_ba ]} attrs_ba false).
  - unfold wf_Element. apply (bool_decide_unpack _). by vm_compute.
  - reflexivity.
Defined.

(** X8: the string does not depend on [noCopy]: with the copy and without
    it [dumpString] returns the same string, or raises the same
    exception. *)
Theorem dumpString_noCopy_same_string (obj : ref) (σ : store) :
  fst <$> dumpString obj true σ = fst <$> dumpString obj false σ.
Proof.
  destruct (σ !! obj) as [t|] eqn:Hobj.
  - by rewrite (dumpString_noCopy _ _ _ Hobj), (dumpString_copy _ _ _ Hobj).
  - unfold dumpString, deepcopy. by rewrite Hobj.
Qed.

Lemma serialize_plain_unfold (elem : Element) :
  serialize_plain elem =
    items ← serialize_plain_items (attrib elem);
    inner ← serialize_plain_all (children elem);
    let body :=
      match truthy (text elem), children elem with
      | [], [] => py " />"
      | t, _ => py ">" ++ escape_cdata t ++ inner ++ py "</" ++ tag elem
                ++ py ">"
      end in
    Ok (py "<" ++ tag elem ++ items ++ body
        ++ escape_cdata (truthy (tail elem))).
Proof. by destruct elem. Qed.

(** *** What the serializer writes *)

Lemma serialize_xml_unfold (qnames namespaces : list (str * str))
    (elem : Element) :
  serialize_xml qnames namespaces elem =
    tag ← qname_of qnames (tag elem);
    xmlns ← serialize_namespaces namespaces;
    items ← serialize_items qnames (attrib elem);
    inner ← serialize_children qnames (children elem);
    let body :=
      match truthy (text elem), children elem with
      | [], [] => py " />"
      | t, _ => py ">" ++ escape_cdata t ++ inner ++ py "</" ++ tag ++ py ">"
      end in
    Ok (py "<" ++ tag ++ xmlns ++ items ++ body
        ++ escape_cdata (truthy (tail elem))).
Proof. by destruct elem. Qed.

Lemma serialize_namespaces_Ok (namespaces : list (str * str)) :
  ∃ s, serialize_namespaces namespaces = Ok s.
Proof.
  unfold serialize_namespaces.
  induction (sorted _ namespaces) as [|vk l [s IH]]; cbn [foldr];
    [by eexists|].
  rewrite IH. cbn [escape_attrib mbind outcome_bind]. by eexists.
Qed.

Lemma names_inv tg attrs tx tl cs :
  names (mkElement tg attrs tx tl cs) = tg :: attrs.*1 ++ (cs ≫= names).
Proof.
  unfold names. cbn [iter children]. rewrite bind_cons. cbn [tag attrib app].
  do 2 f_equal. induction cs as [|c cs IH]; [done|].
  by rewrite !bind_cons, bind_app, IH.
Qed.

Lemma all_str_inv tg attrs tx tl cs :
  all_str (mkElement tg attrs tx tl cs) ↔
  Forall (λ kv : str * PyValue, is_PyStr kv.2 = true) attrs ∧
  Forall all_str cs.
Proof. unfold all_str. simpl. by rewrite Forall_cons, Forall_bind. Qed.

Lemma serialize_items_Ok_iff (qnames : list (str * str))
    (items : list (str * PyValue)) :
  Forall (λ name, is_Some (dict_get qnames name)) items.*1 →
  ((∃ s, serialize_items qnames items = Ok s)
   ↔ Forall (λ kv : str * PyValue, is_PyStr kv.2 = true) items) ∧
  (∀ e, serialize_items qnames items = Raise e → e = TypeError).
Proof.
  unfold serialize_items. induction items as [|[k v] items IH];
    cbn [foldr fmap list_fmap fst snd].
  { intros _. split; [split; [constructor|by eexists]|done]. }
  intros [[q Hq] Hitems]%Forall_cons. destruct (IH Hitems) as [IH1 IH2].
  rewrite Forall_cons, <-IH1. cbn [snd]. unfold qname_of. rewrite Hq.
  cbn [from_option].
  destruct v; cbn [escape_attrib is_PyStr mbind outcome_bind];
    try (split; [split; [by intros [? ?]|by intros [? _]]|congruence]).
  destruct (foldr _ _ items) as [r|e]; cbn [mbind outcome_bind].
  - split; [split; [by split; [|eexists]|by eexists]|done].
  - split; [split; [by intros [? ?]|by intros [_ [? ?]]]|].
    intros e' [= <-]. by apply IH2.
Qed.

(** With an entry for every name of the tree the serializer returns
    exactly when every attribute value is a string, and raises nothing but
    TypeError. *)
Lemma serialize_xml_Ok_iff (qnames namespaces : list (str * str))
    (t : Element) :
  Forall (λ name, is_Some (dict_get qnames name)) (names t) →
  ((∃ s, serialize_xml qnames namespaces t = Ok s) ↔ all_str t) ∧
  (∀ e, serialize_xml qnames namespaces t = Raise e → e = TypeError).
Proof.
  revert namespaces.
  induction t as [tg attrs tx tl cs IH] using Element_ind'.
  intros namespaces. rewrite names_inv.
  intros [[q Hq] [Hattrs Hcs]%Forall_app]%Forall_cons.
  rewrite Forall_bind in Hcs.
  rewrite all_str_inv, serialize_xml_unfold. cbn [tag attrib children].
  unfold qname_of. rewrite Hq. cbn [from_option mbind outcome_bind].
  destruct (serialize_namespaces_Ok namespaces) as [xmlns ->].
  cbn [mbind outcome_bind].
  destruct (serialize_items_Ok_iff qnames attrs Hattrs) as [Hitems1 Hitems2].
  rewrite <-Hitems1.
  assert (((∃ s, serialize_children qnames cs = Ok s) ↔ Forall all_str cs) ∧
          (∀ e, serialize_children qnames cs = Raise e → e = TypeError))
    as [Hcs1 Hcs2].
  { unfold serialize_children. clear Hitems1 Hitems2.
    induction cs as [|c cs IHcs]; cbn [foldr].
    { split; [split; [constructor|by eexists]|done]. }
    apply Forall_cons in IH as [IHc IH]. apply Forall_cons in Hcs as [Hc Hcs].
    destruct (IHcs IH Hcs) as [IH1 IH2]. destruct (IHc [] Hc) as [Hc1 Hc2].
    rewrite Forall_cons, <-IH1, <-Hc1.
    destruct (serialize_xml qnames [] c) as [s|e]; cbn [mbind outcome_bind].
    - destruct (foldr _ _ cs) as [r|e]; cbn [mbind outcome_bind].
      + split; [split; [by split; eexists|by eexists]|done].
      + split; [split; [by intros [? ?]|by intros [_ [? ?]]]|].
        intros e' [= <-]. by apply IH2.
    - split; [split; [by intros [? ?]|by intros [[? ?] _]]|].
      intros e' [= <-]. by apply Hc2. }
  rewrite <-Hcs1.
  destruct (serialize_items qnames attrs) as [items|e];
    cbn [mbind outcome_bind].
  - destruct (serialize_children qnames cs) as [inner|e];
      cbn [mbind outcome_bind].
    + split; [split; [by split; eexists|by eexists]|done].
    + split; [split; [by intros [? ?]|by intros [_ [? ?]]]|].
      intros e' [= <-]. by apply Hcs2.
  - split; [split; [by intros [? ?]|by intros [[? ?] _]]|].
    intros e' [= <-]. by apply Hitems2.
Qed.

(** [tostring] returns exactly when every name of the tree can be written
    and every attribute value is a string; a name that cannot be written
    makes it raise ValueError, and when there is none an attribute value
    that is no string makes it raise TypeError. *)
Lemma et_tostring_Ok_iff (t : Element) :
  ((∃ s, et_tostring t = Ok s) ↔ closed_names t ∧ all_str t) ∧
  (∀ e, et_tostring t = Raise e →
     e = ValueError ∧ ¬ closed_names t ∨
     e = TypeError ∧ closed_names t ∧ ¬ all_str t).
Proof.
  unfold et_tostring.
  destruct (namespaces_of t) as [[qnames namespaces]|e] eqn:Htables;
    cbn [mbind outcome_bind].
  - assert (closed_names t) as Hclosed
      by (apply namespaces_of_Ok_iff; by eexists).
    apply namespaces_of_entries in Htables as (Hin & _ & _).
    destruct (serialize_xml_Ok_iff qnames namespaces t) as [Hok Hraise].
    { apply Forall_forall. exact Hin. }
    split.
    + rewrite Hok. split; [done|by intros [_ ?]].
    + intros e He. right. split; [by eapply Hraise|]. split; [done|].
      intros Hall. apply Hok in Hall as [s Hs]. congruence.
  - assert (¬ closed_names t) as Hopen.
    { intros [tables Ht]%namespaces_of_Ok_iff. congruence. }
    split.
    + split; [by intros [? ?]|by intros [? _]].
    + intros e' [= <-]. left. split; [|done]. by eapply namespaces_of_Raise.
Qed.

Lemma serialize_items_plain (qnames : list (str * str))
    (items : list (str * PyValue)) :
  Forall (λ name, dict_get qnames name = Some name) items.*1 →
  serialize_items qnames items = serialize_plain_items items.
Proof.
  unfold serialize_items, serialize_plain_items.
  induction items as [|[k v] items IH]; cbn [foldr fmap list_fmap fst snd];
    [done|].
  intros [Hk Hitems]%Forall_cons. rewrite IH by done.
  unfold qname_of. rewrite Hk. cbn [from_option].
  by destruct (escape_attrib v).
Qed.

(** On a tree without qualified names the serializer writes every name as
    it is, and no declaration. *)
Lemma serialize_xml_plain (qnames : list (str * str)) (t : Element) :
  Forall (λ name, dict_get qnames name = Some name) (names t) →
  serialize_xml qnames [] t = serialize_plain t.
Proof.
  induction t as [tg attrs tx tl cs IH] using Element_ind'.
  rewrite names_inv. intros [Hq [Hattrs Hcs]%Forall_app]%Forall_cons.
  rewrite Forall_bind in Hcs.
  rewrite serialize_xml_unfold, serialize_plain_unfold.
  cbn [tag attrib children text tail].
  unfold qname_of. rewrite Hq. cbn [from_option mbind outcome_bind].
  change (serialize_namespaces []) with (Ok (@nil N)).
  cbn [mbind outcome_bind]. rewrite serialize_items_plain by done.
  assert (serialize_children qnames cs = serialize_plain_all cs) as ->; [|done].
  unfold serialize_children, serialize_plain_all.
  induction cs as [|c cs IHcs]; cbn [foldr]; [done|].
  apply Forall_cons in IH as [IHc IH]. apply Forall_cons in Hcs as [Hc Hcs].
  by rewrite IHc, IHcs.
Qed.

Lemma et_tostring_plain (t : Element) :
  plain_names t → et_tostring t = serialize_plain t.
Proof.
  intros Hplain.
  assert (closed_names t) as Hclosed.
  { eapply Forall_impl; [exact Hplain|]. by intros name Hname ?. }
  apply namespaces_of_Ok_iff in Hclosed as [[qnames namespaces] Htables].
  unfold et_tostring. rewrite Htables. cbn [mbind outcome_bind].
  apply namespaces_of_entries in Htables as (Hin & Hentries & Hns).
  rewrite Hns by done. apply serialize_xml_plain.
  unfold plain_names in Hplain. rewrite Forall_forall in Hplain |- *.
  intros name Hname. destruct (Hin name Hname) as [q Hq].
  by rewrite (Hentries name q Hq (Hplain name Hname)) in Hq.
Qed.

Lemma et_tostring_head (elem : Element) (s : str) :
  et_tostring elem = Ok s → ∃ rest, s = 60 :: rest.
Proof.
  unfold et_tostring.
  destruct (namespaces_of elem) as [[qnames namespaces]|]; [|done].
  cbn [mbind outcome_bind]. rewrite serialize_xml_unfold.
  destruct (qname_of qnames (tag elem)) as [tg|]; [|done].
  destruct (serialize_namespaces namespaces) as [xmlns|]; [|done].
  destruct (serialize_items qnames (attrib elem)) as [items|]; [|done].
  destruct (serialize_children qnames (children elem)) as [inner|]; [|done].
  cbn [mbind outcome_bind]. cbv zeta. intros Hs. injection Hs as <-.
  eexists. reflexivity.
Qed.

Lemma lstrip_head (s : str) (c : char) (rest : str) :
  lstrip s = c :: rest → isspace c = false.
Proof.
  induction s as [|x s IH]; simpl; [done|].
  destruct (isspace x) eqn:Hx; [exact IH|]. by intros [= <- _].
Qed.

Lemma lstrip_snoc (s : str) (c : char) :
  isspace c = false → ∃ s', lstrip (s ++ [c]) = s' ++ [c].
Proof.
  intros Hc. induction s as [|x s [s' IH]]; simpl.
  - rewrite Hc. by exists [].
  - destruct (isspace x); [by exists s'|]. by exists (x :: s).
Qed.

Lemma rstrip_cons (c : char) (s : str) :
  isspace c = false → ∃ s', rstrip (c :: s) = c :: s'.
Proof.
  intros Hc. unfold rstrip. rewrite reverse_cons.
  destruct (lstrip_snoc (reverse s) c Hc) as [s' ->].
  rewrite reverse_app. by eexists.
Qed.

(** X9: a string [dumpString] returns starts with the [<] of the root
    element and does not end with a blank character. *)
Theorem dumpString_no_blank_end
    (obj : ref) (noCopy : bool) (σ σ' : store) (xStr : str) :
  dumpString obj noCopy σ = Some (Ok xStr, σ') →
  (∃ rest, xStr = 60 :: rest) ∧
  (∀ c, last xStr = Some c → isspace c = false).
Proof.
  intros Hdump.
  assert (∃ t s, et_tostring t = Ok s ∧ xStr = rstrip s) as (t & s & Hs & ->).
  { destruct (σ !! obj) as [t|] eqn:Hobj.
    - exists (canonical t). destruct noCopy.
      + rewrite (dumpString_noCopy _ _ _ Hobj) in Hdump.
        destruct (et_tostring (canonical t)) as [s|]; [|done].
        exists s. split; [done|]. simpl in Hdump. congruence.
      + rewrite (dumpString_copy _ _ _ Hobj) in Hdump.
        destruct (et_tostring (canonical t)) as [s|]; [|done].
        exists s. split; [done|]. simpl in Hdump. congruence.
    - unfold dumpString, deepcopy in Hdump. rewrite Hobj in Hdump.
      by destruct noCopy. }
  split.
  - destruct (et_tostring_head _ _ Hs) as [rest ->].
    destruct (rstrip_cons 60 rest) as [r' ->]; [done|]. by eexists.
  - intros c Hc. unfold rstrip in Hc. rewrite last_reverse in Hc.
    destruct (lstrip _) as [|c' rest] eqn:Hl; [done|].
    injection Hc as <-. by eapply lstrip_head.
Qed.

Lemma dumpString_no_blank_end_witness :
  ∃ rest, py "<p>Hello <b>world</b>" ++ [10] ++ py "</p>" = 60 :: rest.
Proof.
  eapply (dumpString_no_blank_end 0%nat true {[ 0%nat := hello_world ]}).
  by vm_compute.
Defined.

(** X13: [dump] prints the string [dumpString] returns, followed by a line
    feed, and leaves every element of the caller as it was; when
    [dumpString] raises, nothing is printed. *)
Theorem dump_prints_and_leaves_tree
    (obj : ref) (σ : store) (t : Element) (stdout : str) :
  σ !! obj = Some t →
  ∃ r σ' stdout',
    dump obj σ stdout = Some (r, σ', stdout') ∧
    (∀ o, o ∈ dom σ → σ' !! o = σ !! o) ∧
    match fst <$> dumpString obj true σ with
    | Some (Ok xStr) => r = Ok () ∧ stdout' = stdout ++ xStr ++ [10]
    | Some (Raise e) => r = Raise e ∧ stdout' = stdout
    | None => False
    end.
Proof.
  intros Hobj. unfold dump.
  rewrite (dumpString_copy _ _ _ Hobj), (dumpString_noCopy _ _ _ Hobj).
  cbn [mbind option_bind fmap option_fmap option_map fst].
  destruct (xStr ← et_tostring (canonical t); Ok (rstrip xStr)) as [xStr|e].
  - eexists _, _, _. split; [done|]. split; [|done].
    intros o Ho. rewrite lookup_insert_ne; [done|].
    intros Heq. apply (is_fresh (dom σ)). by rewrite Heq.
  - eexists _, _, _. split; [done|]. split; [|done].
    intros o Ho. rewrite lookup_insert_ne; [done|].
    intros Heq. apply (is_fresh (dom σ)). by rewrite Heq.
Qed.

Lemma dump_prints_and_leaves_tree_witness :
  ∃ r σ' stdout',
    dump 0%nat {[ 0%nat := hello_world ]} [] = Some (r, σ', stdout') ∧
    (∀ o, o ∈ dom ({[ 0%nat := hello_world ]} : gmap nat Element) →
          σ' !! o = ({[ 0%nat := hello_world ]} : gmap nat Element) !! o) ∧
    match fst <$> dumpString 0%nat true {[ 0%nat := hello_world ]} with
    | Some (Ok xStr) => r = Ok () ∧ stdout' = [] ++ xStr ++ [10]
    | Some (Raise e) => r = Raise e ∧ stdout' = []
    | None => False
    end.
Proof.
  apply (dump_prints_and_leaves_tree 0%nat {[ 0%nat := hello_world ]}
           hello_world []).
  reflexivity.
Defined.

(** X10: what [dumpString] keeps of the tree when it works without the
    copy.  Element by element, in document order, the tree it leaves has
    the tags of the tree it was given, the same attributes up to their
    order and the same number of children; it has every text of an element
    without children and every text with a character that is not blank; and
    it has every tail with a character that is not blank, of the root and
    of each child but the last of its parent.  The tail of a last child is
    not kept: in the tree left it is a line feed followed by spaces,
    whatever it was. *)
Theorem dumpString_in_place_keeps_content
    (obj : ref) (σ : store) (t : Element) :
  wf_Element t → σ !! obj = Some t →
  ∃ xStr σ' t',
    dumpString obj true σ = Some (xStr, σ') ∧
    σ' !! obj = Some t' ∧
    Forall2 same_content (iter t) (iter t') ∧
    (blank (tail t) = false → tail t' = tail t) ∧
    Forall (λ n', ∀ c, last (children n') = Some c →
                       ∃ d, tail c = Some (newline_indent d))
           (iter t').
Proof.
  intros Hwf Hobj. eexists _, _, _.
  split; [by apply dumpString_noCopy|].
  split; [by rewrite lookup_insert_eq|].
  split; [by apply canonical_same_content|]. split.
  - intros Hb. unfold canonical.
    by rewrite sort_attributes_tail, indent_tail_kept.
  - unfold canonical. rewrite sort_attributes_indent.
    apply indent_last_tails.
Qed.

Lemma dumpString_in_place_keeps_content_witness :
  ∃ xStr σ' t',
    dumpString 0%nat true {[ 0%nat := hello_world ]} = Some (xStr, σ') ∧
    σ' !! 0%nat = Some t' ∧
    Forall2 same_content (iter hello_world) (iter t') ∧
    (blank (tail hello_world) = false → tail t' = tail hello_world) ∧
    Forall (λ n', ∀ c, last (children n') = Some c →
                       ∃ d, tail c = Some (newline_indent d))
           (iter t').
Proof.
  apply (dumpString_in_place_keeps_content 0%nat {[ 0%nat := hello_world ]}).
  - unfold wf_Element. apply (bool_decide_unpack _). by vm_compute.
  - reflexivity.
Defined.

(** *** When the serializer raises *)

Lemma all_str_canonical (t : Element) :
  wf_Element t → all_str (canonical t) ↔ all_str t.
Proof.
  intros Hwf. pose proof (canonical_same_content t Hwf) as Hsame.
  unfold all_str. split; intros Hall.
  - eapply Forall2_Forall_l; [exact Hsame|].
    eapply Forall_impl; [exact Hall|].
    intros n' Hn' n (_ & Hattr & _). by rewrite <-Hattr.
  - eapply Forall2_Forall_r; [exact Hsame|].
    eapply Forall_impl; [exact Hall|].
    intros n Hn n' (_ & Hattr & _). by rewrite Hattr.
Qed.

(** X12: on a well-formed tree [dumpString] returns a string exactly when
    every name of the tree can be written (one that starts with an opening
    brace has a closing brace after it) and every attribute value is a
    string.  Otherwise the serializer raises: ValueError when a name cannot
    be written, TypeError when every name can and a value is no string. *)
Theorem dumpString_raises_on_non_string
    (obj : ref) (noCopy : bool) (σ : store) (t : Element) :
  wf_Element t → σ !! obj = Some t →
  ((∃ xStr, fst <$> dumpString obj noCopy σ = Some (Ok xStr))
   ↔ closed_names t ∧ all_str t) ∧
  (∀ e, fst <$> dumpString obj noCopy σ = Some (Raise e) →
     e = ValueError ∧ ¬ closed_names t ∨
     e = TypeError ∧ closed_names t ∧ ¬ all_str t).
Proof.
  intros Hwf Hobj.
  assert (fst <$> dumpString obj noCopy σ
          = Some (xStr ← et_tostring (canonical t); Ok (rstrip xStr))) as ->.
  { destruct noCopy.
    - by rewrite (dumpString_noCopy _ _ _ Hobj).
    - by rewrite (dumpString_copy _ _ _ Hobj). }
  pose proof (all_str_canonical t Hwf) as Hstr.
  assert (closed_names (canonical t) ↔ closed_names t) as Hclosed
    by (by apply names_canonical).
  destruct (et_tostring_Ok_iff (canonical t)) as [Hok Hraise].
  rewrite Hstr, Hclosed in Hok. rewrite <-Hok.
  destruct (et_tostring (canonical t)) as [s|e'] eqn:Hs;
    cbn [mbind outcome_bind].
  - split; [by split; eexists|done].
  - split; [split; [by intros [? ?]|by intros [? ?]]|].
    intros e [= <-].
    destruct (Hraise e' eq_refl) as [[-> Hopen]|(-> & Hcl & Hnot)].
    + left. by rewrite <-Hclosed.
    + right. by rewrite <-Hclosed, <-Hstr.
Qed.

Lemma dumpString_raises_on_non_string_witness :
  (∃ xStr, fst <$> dumpString 0%nat false {[ 0%nat := z_xml_lang ]}
           = Some (Ok xStr))
  ↔ closed_names z_xml_lang ∧ all_str z_xml_lang.
Proof.
  apply (dumpString_raises_on_non_string 0%nat false {[ 0%nat := z_xml_lang ]}).
  - unfold wf_Element. apply (bool_decide_unpack _). by vm_compute.
  - reflexivity.
Defined.

(** A tag that opens a brace and closes none, and an attribute value that
    is an integer. *)
Example dumpString_raises :
  fst <$> dumpString 0%nat false {[ 0%nat := leaf (py "{x") None ]}
    = Some (Raise ValueError) ∧
  fst <$> dumpString 0%nat false
            {[ 0%nat := mkElement (py "a") [(py "k", PyInt 5)] None None [] ]}
    = Some (Raise TypeError).
Proof. split; by vm_compute. Qed.

(** *** The layout of the output *)

Lemma replace_notin (c : char) (new s : str) : c ∉ s → replace c new s = s.
Proof.
  unfold replace. induction s as [|x s IH]; [done|].
  intros [Hx Hs]%not_elem_of_cons. rewrite bind_cons.
  rewrite decide_False by done. simpl. by rewrite IH.
Qed.

Lemma spaces_notin (c : char) (s : str) :
  isspace c = false → Forall (λ c, isspace c = true) s → c ∉ s.
Proof.
  intros Hc Hs Hin. rewrite Forall_forall in Hs.
  specialize (Hs c Hin). congruence.
Qed.

Lemma escape_cdata_spaces (s : str) :
  Forall (λ c, isspace c = true) s → escape_cdata s = s.
Proof.
  intros Hs. unfold escape_cdata.
  rewrite (replace_notin 38) by (by apply spaces_notin).
  rewrite (replace_notin 60) by (by apply spaces_notin).
  by rewrite (replace_notin 62) by (by apply spaces_notin).
Qed.

Lemma str_repeat_comm (n : nat) (s : str) :
  str_repeat n s ++ s = s ++ str_repeat n s.
Proof.
  unfold str_repeat. induction n as [|n IH]; simpl.
  - by rewrite app_nil_r.
  - by rewrite <-(assoc_L (++)), IH.
Qed.

Lemma newline_indent_S (level : nat) :
  newline_indent level ++ py "  " = newline_indent (S level).
Proof.
  unfold newline_indent. rewrite <-app_comm_cons. f_equal.
  apply str_repeat_comm.
Qed.

Lemma indent_tail_blank (t : Element) (level : nat) :
  blank (tail t) = true → level ≠ 0%nat ∨ children t ≠ [] →
  tail (indent t level) = Some (newline_indent level).
Proof.
  destruct t as [tg attrs tx tl cs]. cbn [tail children]. intros Hb Hor.
  destruct (decide (cs = [])) as [->|Hcs].
  - rewrite indent_leaf, Hb. destruct Hor as [Hl|?]; [|done].
    apply Nat.eqb_neq in Hl. by rewrite Hl.
  - rewrite indent_node by done. cbn zeta. cbn [tail]. rewrite Hb.
    by rewrite blank_spaces by apply spaces_newline_indent.
Qed.

Lemma lstrip_nil (s : str) :
  lstrip s = [] → Forall (λ c, isspace c = true) s.
Proof.
  induction s as [|c s IH]; simpl; [constructor|].
  destruct (isspace c) eqn:Hc; [|done]. by constructor; [|apply IH].
Qed.

Lemma blank_truthy_spaces (x : option str) :
  blank x = true → Forall (λ c, isspace c = true) (truthy x).
Proof.
  destruct x as [s|]; [|constructor]. cbn [blank truthy default].
  intros [Hs|Hs]%orb_true_iff; apply bool_decide_eq_true in Hs.
  - subst. constructor.
  - unfold strip, rstrip in Hs.
    assert (lstrip (reverse (lstrip s)) = []) as Hl.
    { by rewrite <-(reverse_involutive (lstrip _)), Hs. }
    apply lstrip_nil in Hl. rewrite Forall_reverse in Hl. apply lstrip_nil.
    destruct (lstrip s) as [|c rest] eqn:Hls; [done|].
    apply lstrip_head in Hls. apply Forall_cons in Hl as [Hc _]. congruence.
Qed.

Lemma lstrip_app_spaces (w s : str) :
  Forall (λ c, isspace c = true) w → lstrip (w ++ s) = lstrip s.
Proof. induction 1 as [|c w Hc Hw IH]; simpl; [done|]. by rewrite Hc. Qed.

Lemma rstrip_snoc_spaces (s w : str) (c : char) :
  isspace c = false → Forall (λ c, isspace c = true) w →
  rstrip (s ++ [c] ++ w) = s ++ [c].
Proof.
  intros Hc Hw. unfold rstrip.
  rewrite !reverse_app, <-(assoc_L (++)).
  rewrite lstrip_app_spaces by (by apply Forall_reverse).
  rewrite reverse_singleton. simpl. rewrite Hc.
  by rewrite reverse_cons, reverse_involutive.
Qed.

Lemma set_tail_tail (e : Element) : set_tail (tail e) e = e.
Proof. by destruct e. Qed.

Lemma serialize_plain_set_tail (x : option str) (e : Element) :
  serialize_plain (set_tail x e) =
    b ← serialize_plain (set_tail None e); Ok (b ++ escape_cdata (truthy x)).
Proof.
  destruct e as [tg attrs tx tl cs]. rewrite !serialize_plain_unfold.
  cbn [set_tail tag attrib text tail children].
  destruct (serialize_plain_items attrs) as [items|]; [|done].
  destruct (serialize_plain_all cs) as [inner|]; [|done].
  cbn [mbind outcome_bind]. cbv zeta. f_equal.
  change (escape_cdata (truthy None)) with (@nil N).
  by rewrite app_nil_r, <-!(assoc_L (++)).
Qed.

Lemma serialize_plain_items_str (items : list (str * PyValue)) :
  Forall (λ kv : str * PyValue, is_PyStr kv.2 = true) items →
  serialize_plain_items items = Ok (items ≫= item_str).
Proof.
  unfold serialize_plain_items.
  induction 1 as [|[k v] items Hv Hitems IH]; [done|].
  cbn [foldr]. rewrite IH, bind_cons. unfold item_str at 2.
  destruct v; try done. cbn [snd fst escape_attrib mbind outcome_bind].
  by rewrite <-!(assoc_L (++)).
Qed.

Lemma serialize_plain_all_app (l1 l2 : list Element) :
  serialize_plain_all (l1 ++ l2) =
    s1 ← serialize_plain_all l1; s2 ← serialize_plain_all l2; Ok (s1 ++ s2).
Proof.
  unfold serialize_plain_all. induction l1 as [|e l1 IH]; cbn [foldr app].
  { cbn [mbind outcome_bind]. by destruct (foldr _ _ l2). }
  rewrite IH. destruct (serialize_plain e) as [s|]; [|done].
  cbn [mbind outcome_bind].
  destruct (foldr _ _ l1) as [s1|]; [|done]. cbn [mbind outcome_bind].
  destruct (foldr _ _ l2) as [s2|]; [|done]. cbn [mbind outcome_bind].
  by rewrite (assoc_L (++)).
Qed.

Lemma serialize_plain_all_fmap (f : Element → Element) (g : Element → str)
    (cs : list Element) :
  Forall (λ c, serialize_plain (f c) = Ok (g c)) cs →
  serialize_plain_all (f <$> cs) = Ok (cs ≫= g).
Proof.
  unfold serialize_plain_all. induction 1 as [|c cs Hc Hcs IH]; [done|].
  rewrite fmap_cons. cbn [foldr]. by rewrite Hc, IH, bind_cons.
Qed.

Lemma bind_shift {A} (sep : str) (p : A → str) (l : list A) (rest : str) :
  sep ++ (l ≫= λ c, p c ++ sep) ++ rest
  = (l ≫= λ c, sep ++ p c) ++ sep ++ rest.
Proof.
  induction l as [|c l IH]; [done|].
  rewrite !bind_cons, <-!(assoc_L (++)). do 2 f_equal. apply IH.
Qed.

Lemma plain_inv tg attrs tx tl cs :
  plain (mkElement tg attrs tx tl cs) ↔
  (blank tl = true ∧ (cs ≠ [] → blank tx = true)) ∧ Forall plain cs.
Proof. unfold plain. simpl. by rewrite Forall_cons, Forall_bind. Qed.

Lemma name_le_trans : Transitive name_le.
Proof. intros x y z Hxy Hyz. by apply (str_leb_trans x.1 y.1 z.1). Qed.

Lemma name_le_total : Total name_le.
Proof.
  intros x y. unfold name_le. destruct (str_ltb y.1 x.1) eqn:Hyx; [|by left].
  right. by apply str_ltb_asym.
Qed.

(** On a dictionary the loop of [dumpString] leaves the items in ascending
    order of name. *)
Lemma sort_attrib_ascending_order (attrs : list (str * PyValue)) :
  NoDup attrs.*1 → sort_attrib attrs = ascending attrs.
Proof.
  intros Hnd. apply (StronglySorted_unique_strong name_le).
  - intros x1 x2 Hx1 Hx2 H12 H21.
    rewrite sort_attrib_Permutation_self in Hx1 by done.
    unfold ascending in Hx2. rewrite merge_sort_Permutation in Hx2.
    apply (NoDup_fst_eq attrs); [done..|]. by apply str_ltb_total.
  - rewrite sort_attrib_sorted_keys by done.
    destruct (1 <? length attrs)%nat eqn:Hlen.
    + apply (sorted_StronglySorted _ (λ x y, str_ltb_asym x.1 y.1)
               (λ x y z, str_leb_trans x.1 y.1 z.1)).
    + destruct attrs as [|x [|y attrs]]; [repeat constructor..|done].
  - apply (@StronglySorted_merge_sort _ name_le _ name_le_trans name_le_total).
  - rewrite sort_attrib_Permutation_self by done. unfold ascending.
    by rewrite merge_sort_Permutation.
Qed.

Lemma pretty_node tg attrs tx tl cs (level : nat) :
  cs ≠ [] →
  pretty level (mkElement tg attrs tx tl cs) =
    (py "<" ++ tg ++ (ascending attrs ≫= item_str)) ++ py ">"
    ++ (cs ≫= λ c, newline_indent (S level) ++ pretty (S level) c)
    ++ newline_indent level ++ py "</" ++ tg ++ py ">".
Proof. by destruct cs. Qed.

Lemma pretty_last (level : nat) (t : Element) :
  ∃ p, pretty level t = p ++ [62].
Proof.
  destruct t as [tg attrs tx tl cs]. destruct (decide (cs = [])) as [->|Hcs].
  - cbn [pretty children text tag attrib]. destruct (truthy tx) as [|x tx'].
    + exists ((py "<" ++ tg ++ ascending attrs ≫= item_str) ++ py " /").
      rewrite <-!(assoc_L (++)). reflexivity.
    + exists ((py "<" ++ tg ++ ascending attrs ≫= item_str) ++ py ">"
              ++ escape_cdata (x :: tx') ++ py "</" ++ tg).
      rewrite <-!(assoc_L (++)). reflexivity.
  - rewrite pretty_node by done.
    exists ((py "<" ++ tg ++ ascending attrs ≫= item_str) ++ py ">"
            ++ (cs ≫= λ c, newline_indent (S level) ++ pretty (S level) c)
            ++ newline_indent level ++ py "</" ++ tg).
    rewrite <-!(assoc_L (++)). reflexivity.
Qed.

Lemma serialize_canonical_body (t : Element) (level : nat) :
  wf_Element t → plain t → all_str t →
  serialize_plain (set_tail None (sort_attributes (indent t level)))
  = Ok (pretty level t).
Proof.
  revert level. induction t as [tg attrs tx tl cs IH] using Element_ind'.
  intros level [Hnd Hwf]%wf_Element_inv [[Htl Htx] Hplain]%plain_inv
    [Hattrs Hstr]%all_str_inv.
  assert (serialize_plain_items (sort_attrib attrs)
          = Ok (sort_attrib attrs ≫= item_str)) as Hitems.
  { apply serialize_plain_items_str. by rewrite sort_attrib_Permutation_self. }
  destruct (decide (cs = [])) as [->|Hcs].
  - assert (set_tail None (sort_attributes
              (indent (mkElement tg attrs tx tl []) level))
            = mkElement tg (sort_attrib attrs) tx None []) as ->.
    { rewrite indent_leaf. by destruct (negb (level =? 0)%nat && blank tl). }
    rewrite serialize_plain_unfold. cbn [attrib children text tail tag].
    rewrite Hitems. cbn [serialize_plain_all foldr mbind outcome_bind]. cbv zeta.
    cbn [pretty children text tag attrib].
    rewrite <-(sort_attrib_ascending_order attrs Hnd).
    change (escape_cdata (truthy None)) with (@nil N).
    destruct (truthy tx); by rewrite ?app_nil_r, <-?(assoc_L (++)).
  - rewrite indent_node, pretty_node by done. cbn zeta.
    rewrite <-(sort_attrib_ascending_order attrs Hnd).
    rewrite (Htx Hcs).
    destruct (exists_last Hcs) as (cs0 & c & ->).
    apply Forall_app in IH as [IH0 [IHc _]%Forall_cons].
    apply Forall_app in Hwf as [Hwf0 [Hwfc _]%Forall_cons].
    apply Forall_app in Hplain as [Hplain0 [Hplainc _]%Forall_cons].
    apply Forall_app in Hstr as [Hstr0 [Hstrc _]%Forall_cons].
    cbn [sort_attributes tag attrib text tail children].
    match goal with
    | |- context [set_tail None (mkElement ?a ?b ?c ?d ?e)] =>
        change (set_tail None (mkElement a b c d e))
          with (mkElement a b c None e)
    end.
    rewrite serialize_plain_unfold. cbn [attrib children text tail tag].
    rewrite Hitems. cbn [mbind outcome_bind].
    rewrite !fmap_app, !list_fmap_singleton, set_last_tail_snoc.
    rewrite !fmap_app, !list_fmap_singleton, sort_attributes_set_tail.
    rewrite serialize_plain_all_app, <-list_fmap_compose.
    rewrite (serialize_plain_all_fmap _
      (λ c, pretty (S level) c ++ newline_indent (S level))).
    2:{ rewrite Forall_forall in IH0, Hwf0, Hplain0, Hstr0 |- *.
        intros c' Hc'. cbn [compose].
        assert (blank (tail c') = true) as Hbc.
        { pose proof (Hplain0 c' Hc') as Hp. destruct c'.
          by apply plain_inv in Hp as [[? _] _]. }
        rewrite <-(set_tail_tail (sort_attributes (indent c' (S level)))).
        rewrite serialize_plain_set_tail, IH0 by eauto.
        cbn [mbind outcome_bind]. rewrite sort_attributes_tail.
        rewrite indent_tail_blank; [|done|by left].
        cbn [truthy default].
        by rewrite escape_cdata_spaces by apply spaces_newline_indent. }
    cbn [mbind outcome_bind serialize_plain_all foldr].
    rewrite serialize_plain_set_tail, IHc by done.
    cbn [mbind outcome_bind]. cbv zeta.
    change (truthy None) with (@nil N).
    change (truthy (Some (10 :: str_repeat level (py "  "))))
      with (newline_indent level).
    change (truthy (Some ((10 :: str_repeat level (py "  ")) ++ py "  ")))
      with (10 :: (str_repeat level (py "  ") ++ py "  ")).
    cbv beta iota.
    change (10 :: (str_repeat level (py "  ") ++ py "  "))
      with (newline_indent level ++ py "  ").
    change (escape_cdata []) with (@nil N).
    rewrite newline_indent_S.
    rewrite !escape_cdata_spaces by apply spaces_newline_indent.
    f_equal.
    rewrite bind_app, bind_cons.
    change (@nil Element ≫= _) with (@nil N). rewrite !app_nil_r.
    rewrite <-!(assoc_L (++)). do 4 f_equal.
    apply (bind_shift (newline_indent (S level)) (pretty (S level))).
Qed.

Lemma indent_tail_stays_blank (t : Element) (level : nat) :
  blank (tail t) = true → blank (tail (indent t level)) = true.
Proof.
  intros Hb. destruct (decide (level ≠ 0%nat ∨ children t ≠ [])) as [Hor|Hno].
  - rewrite indent_tail_blank by done.
    apply blank_spaces, spaces_newline_indent.
  - destruct t as [tg attrs tx tl cs]. cbn [children tail] in *.
    destruct cs; [|by destruct Hno; right].
    destruct level; [|by destruct Hno; left].
    by rewrite indent_leaf.
Qed.

(** X11: the layout of the output.  For a well-formed tree without
    qualified names, whose attribute values are strings and in which no
    tail and no text of an element with children has a character that is
    not blank, [dumpString] returns the text [pretty] describes: attributes
    in ascending order of name, every child on a line of its own two spaces
    deeper than its parent, the end tag of an element with children on a
    line of its own, and nothing after the end tag of the root. *)
Theorem dumpString_layout
    (obj : ref) (noCopy : bool) (σ : store) (t : Element) :
  wf_Element t → plain_names t → plain t → all_str t → σ !! obj = Some t →
  fst <$> dumpString obj noCopy σ = Some (Ok (pretty 0 t)).
Proof.
  intros Hwf Hnames Hplain Hstr Hobj.
  assert (fst <$> dumpString obj noCopy σ
          = Some (xStr ← et_tostring (canonical t); Ok (rstrip xStr))) as ->.
  { destruct noCopy.
    - by rewrite (dumpString_noCopy _ _ _ Hobj).
    - by rewrite (dumpString_copy _ _ _ Hobj). }
  rewrite et_tostring_plain by (by apply names_canonical).
  rewrite <-(set_tail_tail (canonical t)).
  rewrite serialize_plain_set_tail. unfold canonical at 2.
  rewrite serialize_canonical_body by done. cbn [mbind outcome_bind].
  do 2 f_equal. unfold canonical. rewrite sort_attributes_tail.
  assert (blank (tail t) = true) as Hb.
  { destruct t. by apply plain_inv in Hplain as [[? _] _]. }
  apply (indent_tail_stays_blank t 0), blank_truthy_spaces in Hb.
  rewrite escape_cdata_spaces by done.
  destruct (pretty_last 0 t) as [p ->].
  rewrite <-(assoc_L (++)). by apply rstrip_snoc_spaces.
Qed.

Lemma dumpString_layout_witness :
  fst <$> dumpString 0%nat false {[ 0%nat := attrs_ba ]}
  = Some (Ok (pretty 0 attrs_ba)).
Proof.
  apply (dumpString_layout 0%nat false {[ 0%nat := attrs_ba ]}).
  - unfold wf_Element. apply (bool_decide_unpack _). by vm_compute.
  - unfold plain_names, plain_name. apply (bool_decide_unpack _).
    by vm_compute.
  - unfold plain. repeat constructor; by vm_compute.
  - unfold all_str. repeat constructor.
  - reflexivity.
Defined.

Example pretty_attrs_ba :
  pretty 0 attrs_ba
  = py "<note a=" ++ [34; 49; 34] ++ py " b=" ++ [34; 50; 34] ++ py " />".
Proof. by vm_compute. Qed.

Example pretty_clef_sign_line :
  pretty 0 clef_sign_line
  = py "<clef>" ++ [10] ++ py "  <sign>G</sign>" ++ [10] ++
    py "  <line>4</line>" ++ [10] ++ py "</clef>".
Proof. by vm_compute. Qed.

(** ** insertBeforeElements: where the new element lands *)

Lemma insertIndices_elem (root : Element) (tagList : list str) (j : nat) :
  j ∈ insertIndices root tagList ↔ insert_index (children root) tagList j.
Proof.
  unfold insertIndices.
  rewrite (insertIndices_spec tagList (children root) id).
  unfold insert_index. rewrite elem_of_singleton. simpl.
  apply or_iff_compat_l. split.
  - intros (i & child & Hi & <- & Ht). eauto.
  - intros (child & Hi & Ht). eauto.
Qed.

Lemma first_match_index (tagList : list str) (cs : list Element) :
  insert_index cs tagList (first_match tagList cs).
Proof.
  unfold insert_index. induction cs as [|c cs IH]; simpl; [by left|].
  case_bool_decide as Hc; [right; by exists c|].
  destruct IH as [->|(child & Hi & Ht)]; [by left|]. right. by exists child.
Qed.

Lemma first_match_least (tagList : list str) (cs : list Element) (j : nat) :
  insert_index cs tagList j → (first_match tagList cs ≤ j)%nat.
Proof.
  unfold insert_index. revert j. induction cs as [|c cs IH]; intros j; simpl.
  { lia. }
  case_bool_decide as Hc; [lia|].
  intros [->|(child & Hi & Ht)].
  - apply le_n_S, IH. by left.
  - destruct j as [|j]; [simpl in Hi; congruence|].
    apply le_n_S, IH. right. by exists child.
Qed.

Lemma first_match_before (tagList : list str) (cs : list Element) :
  Forall (λ c, tag c ∉ tagList) (take (first_match tagList cs) cs) ∧
  (∀ c rest, drop (first_match tagList cs) cs = c :: rest → tag c ∈ tagList).
Proof.
  induction cs as [|c cs [IH1 IH2]]; simpl; [by split; [constructor|]|].
  case_bool_decide as Hc; simpl.
  - split; [constructor|]. by intros c' rest [= <- _].
  - split; [by constructor|exact IH2].
Qed.

Lemma first_match_app (tagList : list str) (l1 l2 : list Element) :
  Forall (λ c, tag c ∉ tagList) l1 →
  first_match tagList (l1 ++ l2) = (length l1 + first_match tagList l2)%nat.
Proof.
  induction 1 as [|c l1 Hc Hl1 IH]; simpl; [done|].
  by rewrite bool_decide_false, IH.
Qed.

Lemma insertBeforeElements_first_match
    (root insert : Element) (tagList : list str) :
  tagList ≠ [] →
  insertBeforeElements root insert (Some tagList)
  = Ok (set_children
          (take (first_match tagList (children root)) (children root)
           ++ insert :: drop (first_match tagList (children root))
                             (children root)) root).
Proof.
  intros Hne.
  destruct (set_min_least (insertIndices root tagList)
              (length (children root))) as (k & Hk & Hin & Hle).
  { apply insertIndices_elem. by left. }
  assert (k = first_match tagList (children root)) as ->.
  { apply Nat.le_antisymm.
    - apply Hle, insertIndices_elem, first_match_index.
    - by apply first_match_least, insertIndices_elem. }
  unfold insertBeforeElements. destruct tagList; [done|]. by rewrite Hk.
Qed.



Lemma delete_middle {A} (l1 l2 : list A) (x : A) :
  delete (length l1) (l1 ++ x :: l2) = l1 ++ l2.
Proof. induction l1 as [|y l1 IH]; simpl; [done|]. by rewrite IH. Qed.

(** X15: the call never raises and only adds: whatever the tag list, the
    root keeps its tag, attributes, text and tail, the new element is one
    of its children, and without it the children are those of before, in
    their order. *)
Theorem insertBeforeElements_only_adds
    (root insert : Element) (tagList : option (list str)) :
  ∃ root' k,
    insertBeforeElements root insert tagList = Ok root' ∧
    tag root' = tag root ∧ attrib root' = attrib root ∧
    text root' = text root ∧ tail root' = tail root ∧
    children root' !! k = Some insert ∧
    delete k (children root') = children root.
Proof.
  destruct tagList as [[|tg tagList]|].
  - exists (set_children (children root ++ [insert]) root),
           (length (children root)).
    repeat split; cbn [set_children children].
    + by apply list_lookup_middle.
    + by rewrite delete_middle, app_nil_r.
  - exists (set_children
              (take (first_match (tg :: tagList) (children root))
                    (children root)
               ++ insert :: drop (first_match (tg :: tagList) (children root))
                                 (children root)) root),
           (length (take (first_match (tg :: tagList) (children root))
                         (children root))).
    split.
    { rewrite insertBeforeElements_first_match by done. do 4 f_equal. }
    repeat split; cbn [set_children children].
    + by apply list_lookup_middle.
    + by rewrite delete_middle, take_drop.
  - exists (set_children (children root ++ [insert]) root),
           (length (children root)).
    repeat split; cbn [set_children children].
    + by apply list_lookup_middle.
    + by rewrite delete_middle, app_nil_r.
Qed.

(** X16: two calls with the same tag list keep the order of the calls.
    The children of the root split into those before the first child with
    a tag of the list, none of which has such a tag, and the rest, which
    starts with such a child or is empty; when the tag of the first new
    element is not in the list, the first call puts it between the two
    parts and the second call puts its element right after it, both before
    the first child with a tag of the list. *)
Theorem insertBeforeElements_twice
    (root a b : Element) (tagList : list str) :
  tagList ≠ [] → tag a ∉ tagList →
  ∃ root1 root2 before after,
    children root = before ++ after ∧
    Forall (λ c, tag c ∉ tagList) before ∧
    (∀ c rest, after = c :: rest → tag c ∈ tagList) ∧
    insertBeforeElements root a (Some tagList) = Ok root1 ∧
    children root1 = before ++ a :: after ∧
    insertBeforeElements root1 b (Some tagList) = Ok root2 ∧
    children root2 = before ++ a :: b :: after.
Proof.
  intros Hne Ha.
  destruct (first_match_before tagList (children root)) as [Hbefore Hafter].
  set (k := first_match tagList (children root)) in *.
  eexists _, _, (take k (children root)), (drop k (children root)).
  split; [by rewrite take_drop|].
  split; [done|]. split; [done|].
  split; [by apply insertBeforeElements_first_match|].
  split; [reflexivity|].
  rewrite insertBeforeElements_first_match by done.
  cbn [set_children children]. fold k. split; [reflexivity|].
  assert (first_match tagList
            (take k (children root) ++ a :: drop k (children root))
          = S (length (take k (children root)))) as ->.
  { rewrite first_match_app by done. simpl.
    rewrite bool_decide_false by done.
    destruct (drop k (children root)) as [|c rest] eqn:Hd; simpl; [lia|].
    rewrite bool_decide_true by (by eapply Hafter). lia. }
  rewrite (cons_middle a), (assoc_L (++)).
  rewrite take_app_length', drop_app_length'
    by (rewrite length_app; simpl; lia).
  by rewrite <-(assoc_L (++)).
Qed.

Lemma insertBeforeElements_twice_witness :
  ∃ root1 root2 before after,
    children clef_sign_line = before ++ after ∧
    Forall (λ c, tag c ∉ [py "line"]) before ∧
    (∀ c rest, after = c :: rest → tag c ∈ [py "line"]) ∧
    insertBeforeElements clef_sign_line fermata (Some [py "line"])
      = Ok root1 ∧
    children root1 = before ++ fermata :: after ∧
    insertBeforeElements root1 attrs_ab (Some [py "line"]) = Ok root2 ∧
    children root2 = before ++ fermata :: attrs_ab :: after.
Proof.
  apply (insertBeforeElements_twice clef_sign_line fermata attrs_ab).
  - discriminate.
  - by vm_compute; intros [= ]%list_elem_of_singleton.
Defined.

(** The two calls on the example of the docstring: the new elements land
    between [sign] and [line], in the order of the calls. *)
Example insertBeforeElements_twice_docstring :
  (root1 ← insertBeforeElements clef_sign_line fermata (Some [py "line"]);
   root2 ← insertBeforeElements root1 attrs_ab (Some [py "line"]);
   Ok (tag <$> children root2))
  = Ok [py "sign"; py "fermata"; py "note"; py "line"].
Proof. by vm_compute. Qed.

(** ** The synchronizers together *)

Lemma dict_set_same {V} (d : list (str * V)) (k : str) (v : V) :
  dict_get d k = Some v → dict_set d k v = d.
Proof.
  unfold dict_get. induction d as [|[k' v'] d IH]; simpl; [done|].
  destruct (decide (k' = k)) as [->|Hk].
  - rewrite bool_decide_true by done. simpl. by intros [= ->].
  - rewrite bool_decide_false by done. intros Hd. by rewrite IH.
Qed.

Lemma dict_set_keys {V} (d : list (str * V)) (k : str) (v : V) :
  (dict_set d k v).*1 = if decide (k ∈ d.*1) then d.*1 else d.*1 ++ [k].
Proof.
  induction d as [|[k' v'] d IH].
  { cbn [dict_set fmap list_fmap fst app]. rewrite decide_False; [done|].
    apply not_elem_of_nil. }
  cbn [dict_set fst snd]. rewrite fmap_cons. cbn [fst].
  destruct (decide (k' = k)) as [->|Hk].
  - rewrite fmap_cons. cbn [fst]. rewrite decide_True; [done|]. left.
  - rewrite fmap_cons, IH. cbn [fst].
    destruct (decide (k ∈ d.*1)) as [Hin|Hin].
    + rewrite decide_True; [done|]. by right.
    + rewrite decide_False; [done|].
      intros [?|?]%elem_of_cons; [congruence|done].
Qed.

Lemma py_truthy_not_None (v : PyValue) : py_truthy v = true → v ≠ PyNone.
Proof. by intros Hv ->. Qed.

(** X17: [synchronizeIdsToM21] leaves the object as it is, the [id] it had
    included, when the element has no [id] attribute or an empty one; a
    string that is not empty becomes the [id] of the object without any
    check, and the object keeps its other fields. *)
Theorem synchronizeIdsToM21_reads_id (element : Element) (m21Object : PyObject) :
  (Element_get element (py "id") = None ∨
   Element_get element (py "id") = Some (PyStr []) →
   synchronizeIdsToM21 element m21Object = m21Object) ∧
  (∀ c s, Element_get element (py "id") = Some (PyStr (c :: s)) →
     fields (synchronizeIdsToM21 element m21Object) !! py "id"
       = Some (PyStr (c :: s)) ∧
     isProtoM21Object (synchronizeIdsToM21 element m21Object)
       = isProtoM21Object m21Object ∧
     ∀ name, name ≠ py "id" →
       fields (synchronizeIdsToM21 element m21Object) !! name
       = fields m21Object !! name).
Proof.
  unfold synchronizeIdsToM21. split.
  - by intros [-> | ->].
  - intros c s ->. cbn [default from_option id py_truthy].
    rewrite bool_decide_false by done. cbn [negb setattr fields].
    split; [apply lookup_insert_eq|]. split; [done|].
    intros name Hname. by rewrite lookup_insert_ne.
Qed.

Lemma synchronizeIdsToM21_reads_id_witness :
  synchronizeIdsToM21 fermata (m21 [(py "id", PyStr (py "doNotOverwrite"))])
  = m21 [(py "id", PyStr (py "doNotOverwrite"))].
Proof.
  destruct (synchronizeIdsToM21_reads_id fermata
              (m21 [(py "id", PyStr (py "doNotOverwrite"))])) as [Hskip _].
  apply Hskip. by left.
Defined.

(** X18: round trip of an identifier.  An [id] of a music21 object that is
    valid and not empty, written to an element by [synchronizeIdsToXML] and
    read back by [synchronizeIdsToM21] into any object, is the [id] of that
    object. *)
Theorem synchronizeIds_round_trip
    (isValidXSDID : PyValue → bool) (element : Element)
    (m21Object other : PyObject) (m21Id : PyValue) :
  isProtoM21Object m21Object = true →
  fields m21Object !! py "id" = Some m21Id →
  py_truthy m21Id = true → isValidXSDID m21Id = true →
  fields (synchronizeIdsToM21
            (synchronizeIdsToXML isValidXSDID element (Some m21Object))
            other) !! py "id"
  = Some m21Id.
Proof.
  intros Hproto Hid Htruthy Hvalid.
  unfold synchronizeIdsToXML. rewrite Hproto, Hid. cbn [negb].
  rewrite decide_False by (by apply py_truthy_not_None).
  rewrite Hvalid. cbn [negb]. unfold synchronizeIdsToM21, Element_get.
  cbn [Element_set attrib]. rewrite dict_get_set. cbn [default from_option id].
  rewrite Htruthy. cbn [negb setattr fields]. apply lookup_insert_eq.
Qed.

Lemma synchronizeIds_round_trip_witness :
  fields (synchronizeIdsToM21
            (synchronizeIdsToXML spec_isValidXSDID fermata
               (Some (m21 [(py "id", PyStr (py "fermata1"))])))
            (m21 [])) !! py "id"
  = Some (PyStr (py "fermata1")).
Proof.
  apply (synchronizeIds_round_trip spec_isValidXSDID fermata
           (m21 [(py "id", PyStr (py "fermata1"))]) (m21 []));
    by vm_compute.
Defined.

(** X19: [synchronizeIdsToXML] touches the [id] attribute only and never
    writes an identifier the validity check refuses: tag, text, tail,
    children and every other attribute are those of before, and either the
    element is unchanged or its [id] is a valid identifier. *)
Theorem synchronizeIdsToXML_only_valid_id
    (isValidXSDID : PyValue → bool) (element : Element)
    (m21Object : option PyObject) :
  let element' := synchronizeIdsToXML isValidXSDID element m21Object in
  tag element' = tag element ∧ text element' = text element ∧
  tail element' = tail element ∧ children element' = children element ∧
  (∀ k, k ≠ py "id" → Element_get element' k = Element_get element k) ∧
  (element' = element ∨
   ∃ m21Id, Element_get element' (py "id") = Some m21Id ∧
            isValidXSDID m21Id = true).
Proof.
  cbv zeta. unfold synchronizeIdsToXML.
  destruct m21Object as [o|]; [|by auto 10].
  destruct (negb (isProtoM21Object o)); [by auto 10|].
  destruct (fields o !! py "id") as [m21Id|]; [|by auto 10].
  destruct (decide (m21Id = PyNone)); [by auto 10|].
  destruct (isValidXSDID m21Id) eqn:Hvalid; cbn [negb]; [|by auto 10].
  repeat split; try done.
  - intros k Hk. by apply dict_get_set_ne.
  - right. exists m21Id. split; [apply dict_get_set|done].
Qed.

(** X20: what is read is not always written back.  A non-empty [id] of an
    element that the validity check refuses is taken by
    [synchronizeIdsToM21] as the [id] of the object, and
    [synchronizeIdsToXML] then leaves any element as it is for that
    object. *)
Theorem synchronizeIds_invalid_not_written_back
    (isValidXSDID : PyValue → bool) (element target : Element)
    (m21Object : PyObject) (c : char) (s : str) :
  Element_get element (py "id") = Some (PyStr (c :: s)) →
  isValidXSDID (PyStr (c :: s)) = false →
  fields (synchronizeIdsToM21 element m21Object) !! py "id"
    = Some (PyStr (c :: s)) ∧
  synchronizeIdsToXML isValidXSDID target
    (Some (synchronizeIdsToM21 element m21Object)) = target.
Proof.
  intros Hid Hvalid.
  assert (synchronizeIdsToM21 element m21Object
          = setattr m21Object (py "id") (PyStr (c :: s))) as ->.
  { unfold synchronizeIdsToM21. rewrite Hid.
    cbn [default from_option id py_truthy].
    by rewrite bool_decide_false. }
  cbn [setattr fields]. split; [apply lookup_insert_eq|].
  unfold synchronizeIdsToXML. cbn [setattr isProtoM21Object fields].
  destruct (negb (isProtoM21Object m21Object)); [done|].
  rewrite lookup_insert_eq. rewrite decide_False by done.
  by rewrite Hvalid.
Qed.

Lemma synchronizeIds_invalid_not_written_back_witness :
  synchronizeIdsToXML spec_isValidXSDID fermata
    (Some (synchronizeIdsToM21
             (Element_set fermata (py "id") (PyStr (py "123456")))
             (m21 []))) = fermata.
Proof.
  apply (synchronizeIds_invalid_not_written_back spec_isValidXSDID
           (Element_set fermata (py "id") (PyStr (py "123456"))) fermata
           (m21 []) 49 (py "23456"));
    by vm_compute.
Defined.

(** X21: round trip of a field.  A value that is not None, written to an
    attribute by [setXMLAttributeFromAttribute] with a transform and read
    back by [setM21AttributeFromAttribute] with a second transform into any
    object, is the value of the field again whenever the second transform
    gives the value back from the string written; the same holds with the
    second transform alone and, for a string, with no transform at all. *)
Theorem attribute_round_trip
    (hyphenToCamelCase : str → str) (m21El other : PyObject)
    (xmlEl : Element) (xmlAttributeName : str) (attributeName : option str)
    (value : PyValue) :
  let field := default (hyphenToCamelCase xmlAttributeName) attributeName in
  let written toXML fromXML s :=
    ∃ xmlEl' m21El',
      setXMLAttributeFromAttribute hyphenToCamelCase m21El xmlEl
        xmlAttributeName attributeName toXML = Ok xmlEl' ∧
      Element_get xmlEl' xmlAttributeName = Some (PyStr s) ∧
      setM21AttributeFromAttribute hyphenToCamelCase other xmlEl'
        xmlAttributeName attributeName fromXML = Ok m21El' ∧
      fields m21El' !! field = Some value in
  fields m21El !! field = Some value → value ≠ PyNone →
  (∀ f g value' s, f value = Ok value' → py_str value' = Ok s →
     g (PyStr s) = Ok value → written (Some f) (Some g) s) ∧
  (∀ g s, py_str value = Ok s → g (PyStr s) = Ok value →
     written None (Some g) s) ∧
  (∀ s, value = PyStr s → written None None s).
Proof.
  cbv zeta. intros Hfield Hnone.
  assert (∀ toXML fromXML value' s,
            apply_transform toXML value = Ok value' → py_str value' = Ok s →
            apply_transform fromXML (PyStr s) = Ok value →
            ∃ xmlEl' m21El',
              setXMLAttributeFromAttribute hyphenToCamelCase m21El xmlEl
                xmlAttributeName attributeName toXML = Ok xmlEl' ∧
              Element_get xmlEl' xmlAttributeName = Some (PyStr s) ∧
              setM21AttributeFromAttribute hyphenToCamelCase other xmlEl'
                xmlAttributeName attributeName fromXML = Ok m21El' ∧
              fields m21El' !! default (hyphenToCamelCase xmlAttributeName)
                                 attributeName = Some value) as Hgen.
  { intros toXML fromXML value' s Hto Hs Hfrom.
    unfold setXMLAttributeFromAttribute. rewrite Hfield.
    cbn [default from_option id].
    rewrite decide_False by done. rewrite Hto. cbn [mbind outcome_bind].
    rewrite Hs. cbn [mbind outcome_bind].
    eexists _, _. split; [done|].
    unfold setM21AttributeFromAttribute, Element_get.
    cbn [Element_set attrib]. rewrite dict_get_set.
    cbn [default from_option id]. split; [done|].
    rewrite decide_False by done. rewrite Hfrom. cbn [mbind outcome_bind].
    split; [done|]. cbn [setattr fields]. apply lookup_insert_eq. }
  split; [|split].
  - intros f g value' s Hf Hs Hg. by apply (Hgen (Some f) (Some g) value' s).
  - intros g s Hs Hg. by apply (Hgen None (Some g) value s).
  - intros s ->. by apply (Hgen None None (PyStr s) s).
Qed.

Lemma attribute_round_trip_witness :
  ∃ xmlEl' m21El',
    setXMLAttributeFromAttribute id (m21 [(py "isNew", PyBool true)])
      (leaf (py "page-layout") None) (py "new-page") (Some (py "isNew"))
      (Some to_yes_no) = Ok xmlEl' ∧
    Element_get xmlEl' (py "new-page") = Some (PyStr (py "yes")) ∧
    setM21AttributeFromAttribute id (m21 []) xmlEl' (py "new-page")
      (Some (py "isNew")) (Some from_yes_no) = Ok m21El' ∧
    fields m21El' !! py "isNew" = Some (PyBool true).
Proof.
  destruct (attribute_round_trip id (m21 [(py "isNew", PyBool true)]) (m21 [])
              (leaf (py "page-layout") None) (py "new-page")
              (Some (py "isNew")) (PyBool true)) as [Hfg _];
    [reflexivity|discriminate|].
  apply (Hfg to_yes_no from_yes_no (PyStr (py "yes")) (py "yes"));
    reflexivity.
Defined.

(** X22: reading an attribute and writing it back changes nothing.  When
    the attribute is a string and no transform is given,
    [setM21AttributeFromAttribute] followed by
    [setXMLAttributeFromAttribute] from the object it leaves returns the
    element as it was. *)
Theorem attribute_read_then_write
    (hyphenToCamelCase : str → str) (m21El : PyObject) (xmlEl : Element)
    (xmlAttributeName : str) (attributeName : option str) (s : str) :
  Element_get xmlEl xmlAttributeName = Some (PyStr s) →
  ∃ m21El',
    setM21AttributeFromAttribute hyphenToCamelCase m21El xmlEl
      xmlAttributeName attributeName None = Ok m21El' ∧
    setXMLAttributeFromAttribute hyphenToCamelCase m21El' xmlEl
      xmlAttributeName attributeName None = Ok xmlEl.
Proof.
  intros Hget. unfold setM21AttributeFromAttribute. rewrite Hget.
  cbn [default from_option id apply_transform mbind outcome_bind].
  rewrite decide_False by done. eexists. split; [done|].
  unfold setXMLAttributeFromAttribute. cbn [setattr fields].
  rewrite lookup_insert_eq. cbn [default from_option id apply_transform mbind outcome_bind].
  rewrite decide_False by done. cbn [py_str mbind outcome_bind]. f_equal.
  destruct xmlEl as [tg attrs tx tl cs]. unfold Element_set, Element_get in *.
  cbn [tag attrib text tail children] in *. by rewrite dict_set_same.
Qed.

Lemma attribute_read_then_write_witness :
  ∃ m21El',
    setM21AttributeFromAttribute id (m21 [])
      (Element_set fermata (py "type") (PyStr (py "upright")))
      (py "type") None None = Ok m21El' ∧
    setXMLAttributeFromAttribute id m21El'
      (Element_set fermata (py "type") (PyStr (py "upright")))
      (py "type") None None
    = Ok (Element_set fermata (py "type") (PyStr (py "upright"))).
Proof.
  apply (attribute_read_then_write id (m21 [])
           (Element_set fermata (py "type") (PyStr (py "upright")))
           (py "type") None (py "upright")).
  by vm_compute.
Defined.

(** X23: [setXMLAttributeFromAttribute] changes one attribute only.  When
    it returns, tag, text, tail and children of the element and the value
    of every other attribute are those of before; an attribute that was
    there keeps its place among the attributes, a new one is the last. *)
Theorem setXMLAttributeFromAttribute_one_attribute
    (hyphenToCamelCase : str → str) (m21El : PyObject) (xmlEl xmlEl' : Element)
    (xmlAttributeName : str) (attributeName : option str)
    (transform : option (PyValue → outcome PyValue)) :
  setXMLAttributeFromAttribute hyphenToCamelCase m21El xmlEl
    xmlAttributeName attributeName transform = Ok xmlEl' →
  tag xmlEl' = tag xmlEl ∧ text xmlEl' = text xmlEl ∧
  tail xmlEl' = tail xmlEl ∧ children xmlEl' = children xmlEl ∧
  (∀ k, k ≠ xmlAttributeName → Element_get xmlEl' k = Element_get xmlEl k) ∧
  (xmlEl' = xmlEl ∨
   (attrib xmlEl').*1 =
     if decide (xmlAttributeName ∈ (attrib xmlEl).*1) then (attrib xmlEl).*1
     else (attrib xmlEl).*1 ++ [xmlAttributeName]).
Proof.
  unfold setXMLAttributeFromAttribute.
  destruct (decide _); [intros [= <-]; by auto 10|].
  destruct (apply_transform transform _) as [value|]; [|done].
  cbn [mbind outcome_bind].
  destruct (py_str value) as [s|]; [|done].
  cbn [mbind outcome_bind]. intros [= <-].
  repeat split; try done.
  - intros k Hk. by apply dict_get_set_ne.
  - right. apply dict_set_keys.
Qed.

Lemma setXMLAttributeFromAttribute_one_attribute_witness :
  tag (Element_set attrs_ba (py "a") (PyStr (py "0"))) = tag attrs_ba.
Proof.
  eapply (setXMLAttributeFromAttribute_one_attribute id
            (m21 [(py "a", PyInt 0)]) attrs_ba _ (py "a") None None).
  by vm_compute.
Defined.

(** X24: when the synchronizers of attributes raise.
    [setM21AttributeFromAttribute] raises exactly when the attribute is
    there, is not None and the transform raises on it, with the exception
    of the transform.  [setXMLAttributeFromAttribute] raises exactly when
    the field is there, is not None and either the transform raises on it,
    with the exception of the transform, or [str] raises on the value to
    write, which it does with ValueError on an integer of more than 4300
    digits and on nothing else. *)
Theorem attribute_transform_exception
    (hyphenToCamelCase : str → str) (m21El : PyObject) (xmlEl : Element)
    (xmlAttributeName : str) (attributeName : option str)
    (transform : option (PyValue → outcome PyValue)) (e : exn) :
  let field := default (hyphenToCamelCase xmlAttributeName) attributeName in
  (setM21AttributeFromAttribute hyphenToCamelCase m21El xmlEl
     xmlAttributeName attributeName transform = Raise e
   ↔ ∃ value f, Element_get xmlEl xmlAttributeName = Some value ∧
                value ≠ PyNone ∧ transform = Some f ∧ f value = Raise e) ∧
  (setXMLAttributeFromAttribute hyphenToCamelCase m21El xmlEl
     xmlAttributeName attributeName transform = Raise e
   ↔ ∃ value, fields m21El !! field = Some value ∧ value ≠ PyNone ∧
       ((∃ f, transform = Some f ∧ f value = Raise e) ∨
        (transform = None ∧ py_str value = Raise e) ∨
        (∃ f value', transform = Some f ∧ f value = Ok value' ∧
                     py_str value' = Raise e))) ∧
  (∀ value, py_str value = Raise e
     ↔ e = ValueError ∧
       ∃ z, value = PyInt z ∧
            max_str_digits < N.of_nat (length (decimal_digits z))).
Proof.
  cbv zeta. unfold setM21AttributeFromAttribute, setXMLAttributeFromAttribute.
  split; [|split].
  - destruct (Element_get xmlEl xmlAttributeName) as [value|]; cbn [default from_option id].
    + destruct (decide (value = PyNone)) as [->|Hne].
      { split; [done|]. by intros (? & ? & [= <-] & ? & _). }
      destruct transform as [f|]; cbn [apply_transform].
      * destruct (f value) as [v|e'] eqn:Hf; cbn [mbind outcome_bind].
        -- split; [done|]. intros (? & ? & [= <-] & _ & [= <-] & ?).
           congruence.
        -- split.
           ++ intros [= <-]. by exists value, f.
           ++ intros (? & ? & [= <-] & _ & [= <-] & ?). congruence.
      * split; [done|]. by intros (? & ? & _ & _ & ? & _).
    + rewrite decide_True by done. split; [done|].
      by intros (? & ? & ? & _).
  - destruct (fields m21El !! _) as [value|]; cbn [default from_option id].
    + destruct (decide (value = PyNone)) as [->|Hne].
      { split; [done|]. by intros (? & [= <-] & ? & _). }
      destruct transform as [f|]; cbn [apply_transform].
      * destruct (f value) as [v|e'] eqn:Hf; cbn [mbind outcome_bind].
        -- destruct (py_str v) as [s|e'] eqn:Hs; cbn [mbind outcome_bind].
           ++ split; [done|].
              intros (? & [= <-] & _ & [(? & [= <-] & ?)|[[? _]|
                (? & ? & [= <-] & ? & ?)]]); congruence.
           ++ split.
              ** intros [= <-]. exists value. split; [done|]. split; [done|].
                 right. right. by exists f, v.
              ** intros (? & [= <-] & _ & [(? & [= <-] & ?)|[[? _]|
                   (? & ? & [= <-] & ? & ?)]]); congruence.
        -- split.
           ++ intros [= <-]. exists value. split; [done|]. split; [done|].
              left. by exists f.
           ++ intros (? & [= <-] & _ & [(? & [= <-] & ?)|[[? _]|
                (? & ? & [= <-] & ? & ?)]]); congruence.
      * cbn [mbind outcome_bind].
        destruct (py_str value) as [s|e'] eqn:Hs; cbn [mbind outcome_bind].
        -- split; [done|].
           intros (? & [= <-] & _ & [(? & ? & _)|[[_ ?]|
             (? & ? & ? & _)]]); congruence.
        -- split.
           ++ intros [= <-]. exists value. split; [done|]. split; [done|].
              right. by left.
           ++ intros (? & [= <-] & _ & [(? & ? & _)|[[_ ?]|
                (? & ? & ? & _)]]); congruence.
    + rewrite decide_True by done. split; [done|].
      by intros (? & ? & _).
  - intros value. destruct value as [|[|]|z|s]; cbn [py_str];
      try (split; [done|by intros (_ & ? & ? & _)]).
    destruct (N.ltb_spec max_str_digits (N.of_nat (length (decimal_digits z))))
      as [Hl|Hl].
    + split.
      * intros [= <-]. split; [done|]. by exists z.
      * by intros [-> _].
    + split; [done|]. intros (_ & z' & [= <-] & ?). lia.
Qed.

Lemma attribute_transform_exception_witness :
  setXMLAttributeFromAttribute id (m21 [(py "n", PyStr (py "x"))]) fermata
    (py "n") None (Some str_to_int) = Raise ValueError.
Proof.
  apply (attribute_transform_exception id (m21 [(py "n", PyStr (py "x"))])
           fermata (py "n") None (Some str_to_int) ValueError).
  exists (PyStr (py "x")). split; [reflexivity|]. split; [discriminate|].
  left. exists str_to_int. split; [reflexivity|]. by vm_compute.
Defined.
